(** * Badminton Match Scheduler: pairing, dispatch and match lifecycle

    A shallow embedding of the scheduling core of [app.js] (the global
    [state] object and the functions that mutate it), followed by the
    properties of the specification that were checked against it.

    Conventions of the embedding.
    - The global [state] object is the record [State], passed to and
      returned from every operation; an operation also returns the toast
      it shows, if any.
    - Match objects are shared between [state.matches],
      [state.matchQueue] and [state.currentMatches]; they live in a store
      ([objs]) and the three arrays hold references (indices) into it, so
      a mutation through one array is seen through the others exactly
      when they alias.
    - Player objects are only ever reached through [state.players], so
      the roster holds them by value and [state.players.find(...)]
      followed by a mutation is an in-place update of the first entry
      with that id.
    - JS numbers that the code uses as counters are [Z].
    - [saveToStorage()] and the render functions read [state] and do not
      change it; they are left out of the operations on [State]. They
      appear where they matter: in [doImport], whose [try] block they
      can leave through an exception, and in [reload], which reads back
      what [saveToStorage()] wrote.
    - [generateId()], [new Date().toISOString()] and [Math.random()] are
      oracles: fields of the class [Host], indexed by the number of
      earlier calls within the operation. *)

From stdpp Require Import gmap strings pretty list sorting.
From Stdlib Require Import ZArith Lia Ascii.

Open Scope string_scope.
Open Scope list_scope.
Open Scope Z_scope.

(** ** Data model *)

Inductive Level := beginner | intermediate | advanced | pro.

Inductive MatchType := singles | doubles.

Inductive PairingMode := random | balanced | separate.

Inductive Status := pending | playing | completed.

Inductive Winner := team1_wins | team2_wins | draw.

#[global] Instance Level_eq_dec : EqDecision Level.
Proof. solve_decision. Defined.
#[global] Instance MatchType_eq_dec : EqDecision MatchType.
Proof. solve_decision. Defined.
#[global] Instance PairingMode_eq_dec : EqDecision PairingMode.
Proof. solve_decision. Defined.
#[global] Instance Status_eq_dec : EqDecision Status.
Proof. solve_decision. Defined.
#[global] Instance Winner_eq_dec : EqDecision Winner.
Proof. solve_decision. Defined.

(** [LEVEL_WEIGHTS] *)
Definition LEVEL_WEIGHTS (l : Level) : Z :=
  match l with
  | beginner => 1
  | intermediate => 2
  | advanced => 3
  | pro => 4
  end.

(** A player object. [isResting], [wins] and [losses] do not exist on a
    player made by [addPlayer] or [addBulkPlayers] ([None] is
    [undefined]). *)
Record Player := mkPlayer {
  p_id : string;
  p_name : string;
  p_level : Level;
  matchCount : Z;
  isPlaying : bool;
  p_isResting : option bool;
  wins : option Z;
  losses : option Z;
  p_createdAt : string
}.

(** [player.isResting] read as a condition ([!p.isResting],
    [player.isResting ? ... : ...]): an absent field counts as [false]. *)
Definition isResting (p : Player) : bool := default false (p_isResting p).

Record Scores := mkScores {
  score1Set1 : Z; score1Set2 : Z; score1Set3 : Z;
  score2Set1 : Z; score2Set2 : Z; score2Set3 : Z
}.

(** A match object; [None] is [null] or an absent field. *)
Record Match := mkMatch {
  m_id : string;
  m_type : MatchType;
  team1 : list string;
  team2 : list string;
  status : Status;
  court : option Z;
  m_createdAt : string;
  startedAt : option string;
  completedAt : option string;
  scores : option Scores;
  winner : option Winner;
  roundId : option string;
  roundNumber : option Z
}.

Record Round := mkRound {
  r_id : string;
  r_roundNumber : Z;
  r_matches : list string;
  r_createdAt : string
}.

Record Settings := mkSettings {
  matchType : MatchType;
  pairingMode : PairingMode;
  courtCount : Z;
  multiCourt : bool
}.

Record RentalTimer := mkRentalTimer {
  rt_mode : string;
  rt_duration : Z;
  rt_endTime : string;
  rt_remainingSeconds : Z;
  rt_isRunning : bool;
  rt_alertsShown : bool * bool * bool;
  rt_widgetState : string
}.

(** References to match objects: positions in the store. *)
Abbreviation ref := nat (only parsing).

Record State := mkState {
  players : list Player;
  objs : list Match;
  matches : list ref;
  currentMatches : list ref;
  matchQueue : list ref;
  rounds : list Round;
  settings : Settings;
  currentRound : Z;
  rentalTimer : RentalTimer
}.

(** Toasts: [showToast(message, type)]. *)
Inductive ToastType := success | error | info.

Inductive Message :=
  | NeedPlayers (playersNeeded : Z)
  | RoundCreated (round : Z) (count : nat)
  | QueueEmpty
  | CourtsFull
  | CannotStart
  | MatchesStarted (count : nat)
  | NoCurrentMatches
  | MatchCompleted
  | MatchNotFound
  | ScoreSaved
  | NameRequired
  | DuplicateName
  | PlayerAdded (name : string)
  | NamesRequired
  | BulkAddedSome (added skipped : nat)
  | BulkAdded (added : nat)
  | BulkAllDuplicates
  | PlayerEdited.

Definition Toast : Type := Message * ToastType.

(** ** Array helpers *)

Section Arrays.
Context {A : Type}.

(** [[a[i], a[j]] = [a[j], a[i]]] for indices in range. *)
Definition swap (i j : nat) (a : list A) : list A :=
  match a !! i, a !! j with
  | Some x, Some y => <[i := y]> (<[j := x]> a)
  | _, _ => a
  end.

(** [Array.prototype.sort(cmp)]: the sort is stable, [x] stays before
    [y] unless [cmp x y > 0]. *)
Fixpoint sort_insert (cmp : A → A → Z) (x : A) (l : list A) : list A :=
  match l with
  | [] => [x]
  | y :: l' => if cmp x y <=? 0 then x :: y :: l' else y :: sort_insert cmp x l'
  end.

Definition Array_sort (cmp : A → A → Z) (l : list A) : list A :=
  foldr (sort_insert cmp) [] l.

(** [a.shift()] and [a.pop()], with the array that is left. *)
Definition shift (a : list A) : option (A * list A) :=
  match a with
  | [] => None
  | x :: a' => Some (x, a')
  end.

Definition pop (a : list A) : option (list A * A) :=
  match last a with
  | Some x => Some (take (Nat.pred (length a)) a, x)
  | None => None
  end.
End Arrays.

(** The host environment: [Math.random()], [generateId()] (built on
    [Date.now()] and [Math.random()]), [new Date().toISOString()] and the
    string built-ins. [Math_random k mod bound] is the value of
    [Math.floor(Math.random() * bound)] at the [k]-th draw of an
    operation; [generateId k] and [Date_now k] are the results of the
    [k]-th call of an operation. *)
Class Host := {
  Math_random : nat → nat;
  generateId : nat → string;
  Date_now : nat → string;
  trim : string → string;
  toLowerCase : string → string
}.

Section Scheduler.
Context `{!Host}.

(** ** Pairing engine *)

(** [shuffleArray]: the loop [for (i = length - 1; i > 0; i--)], the
    [k]-th draw being the next unused one. *)
Fixpoint shuffle_loop {A} (i k : nat) (shuffled : list A) : list A :=
  match i with
  | O => shuffled
  | S i' =>
      let j := (Math_random k mod (i + 1))%nat in
      shuffle_loop i' (S k) (swap i j shuffled)
  end.

Definition shuffleArray {A} (k : nat) (array : list A) : list A :=
  shuffle_loop (Nat.pred (length array)) k array.

(** Number of draws [shuffleArray] makes on an array. *)
Definition draws {A} (array : list A) : nat := Nat.pred (length array).

(** The loop of [balancePlayers]: [while (sorted.length >= 4)]. Each
    turn removes four elements, so [length sorted] turns are enough;
    the fuel is never what stops the loop (see [balance_loop_fuel]). *)
Fixpoint balance_loop (fuel : nat) (sorted result : list Player) : list Player :=
  match fuel with
  | O => result ++ sorted
  | S fuel' =>
      if decide (4 ≤ length sorted)%nat then
        match shift sorted with
        | Some (strongest, s1) =>
            match pop s1 with
            | Some (s2, weakest) =>
                match shift s2 with
                | Some (secondStrongest, s3) =>
                    match pop s3 with
                    | Some (s4, secondWeakest) =>
                        balance_loop fuel' s4
                          (result ++ [strongest; secondWeakest; secondStrongest; weakest])
                    | None => result ++ sorted
                    end
                | None => result ++ sorted
                end
            | None => result ++ sorted
            end
        | None => result ++ sorted
        end
      else result ++ sorted
  end.

Definition balancePlayers (mt : MatchType) (ps : list Player) : list Player :=
  match mt with
  | singles =>
      Array_sort (λ a b, LEVEL_WEIGHTS (p_level a) - LEVEL_WEIGHTS (p_level b)) ps
  | doubles =>
      let sorted :=
        Array_sort (λ a b, LEVEL_WEIGHTS (p_level b) - LEVEL_WEIGHTS (p_level a)) ps in
      balance_loop (length sorted) sorted []
  end.

(** [separateByLevel]: the four groups are shuffled in the order pro,
    advanced, intermediate, beginner, each shuffle drawing after the
    previous one. *)
Definition group (l : Level) (ps : list Player) : list Player :=
  filter (λ p, p_level p = l) ps.

Definition separateByLevel (k : nat) (ps : list Player) : list Player :=
  let g1 := group pro ps in
  let g2 := group advanced ps in
  let g3 := group intermediate ps in
  let g4 := group beginner ps in
  shuffleArray k g1
    ++ shuffleArray (k + draws g1) g2
    ++ shuffleArray (k + draws g1 + draws g2) g3
    ++ shuffleArray (k + draws g1 + draws g2 + draws g3) g4.

Definition playersPerMatch (mt : MatchType) : nat :=
  match mt with doubles => 4 | singles => 2 end.

Definition playersPerTeam (mt : MatchType) : nat :=
  match mt with doubles => 2 | singles => 1 end.

(** The loop [while (matchesCreated < courtsToFill)] of
    [generateMatches]. [todo] is [courtsToFill - matchesCreated], the
    number of turns the loop condition still allows; [calls] is the
    number of [generateId()] calls made before the loop. *)
Fixpoint match_loop (calls : nat) (mt : MatchType) (todo matchesCreated : nat)
    (shuffledPlayers : list Player) (usedPlayers : gset string) : list Match :=
  match todo with
  | O => []
  | S todo' =>
      let available := filter (λ p, p_id p ∉ usedPlayers) shuffledPlayers in
      if decide (length available < playersPerMatch mt)%nat then []
      else
        let selectedPlayers := take (playersPerMatch mt) available in
        let m :=
          {| m_id := generateId (calls + matchesCreated);
             m_type := mt;
             team1 := p_id <$> take (playersPerTeam mt) selectedPlayers;
             team2 := p_id <$> drop (playersPerTeam mt) selectedPlayers;
             status := pending;
             court := None;
             m_createdAt := Date_now (calls + matchesCreated);
             startedAt := None;
             completedAt := None;
             scores := None;
             winner := None;
             roundId := None;
             roundNumber := None |} in
        m :: match_loop calls mt todo' (S matchesCreated) shuffledPlayers
               (usedPlayers ∪ list_to_set (p_id <$> selectedPlayers))
  end.

(** The first definition of [generateMatches]
    ([originalGenerateMatches]). *)
Definition originalGenerateMatches (calls : nat) (s : Settings)
    (availablePlayers : list Player) : list Match :=
  let shuffledPlayers :=
    match pairingMode s with
    | random => shuffleArray 0 availablePlayers
    | balanced => balancePlayers (matchType s) availablePlayers
    | separate => separateByLevel 0 availablePlayers
    end in
  let shuffledPlayers :=
    Array_sort (λ a b, matchCount a - matchCount b) shuffledPlayers in
  match_loop calls (matchType s) (Z.to_nat (courtCount s)) 0 shuffledPlayers ∅.

(** The override: [generateMatches] filters out resting players and
    calls the original. *)
Definition generateMatches (calls : nat) (s : Settings)
    (availablePlayers : list Player) : list Match :=
  let activePlayers := filter (λ p, isResting p = false) availablePlayers in
  originalGenerateMatches calls s activePlayers.

(** ** Roster and store access *)

(** [state.players.find(p => p.id === playerId)] *)
Fixpoint find_player (playerId : string) (ps : list Player) : option Player :=
  match ps with
  | [] => None
  | p :: ps' => if decide (p_id p = playerId) then Some p else find_player playerId ps'
  end.

(** [const player = state.players.find(...); if (player) { f(player) }]:
    the object found is mutated where it sits in the roster. *)
Fixpoint update_player (playerId : string) (f : Player → Player) (ps : list Player)
    : list Player :=
  match ps with
  | [] => []
  | p :: ps' =>
      if decide (p_id p = playerId) then f p :: ps'
      else p :: update_player playerId f ps'
  end.

(** [ids.forEach(playerId => { ...find and mutate... })] *)
Definition update_players (f : string → Player → Player) (ids : list string)
    (ps : list Player) : list Player :=
  foldl (λ acc playerId, update_player playerId (f playerId) acc) ps ids.

(** [a.findIndex(f)]; [None] is [-1]. *)
Fixpoint findIndex {A} (f : A → bool) (a : list A) : option nat :=
  match a with
  | [] => None
  | x :: a' => if f x then Some O else S <$> findIndex f a'
  end.

(** A predicate on match objects, read through a reference. *)
Definition on_obj (heap : list Match) (f : Match → bool) (l : ref) : bool :=
  from_option f false (heap !! l).

(** [[...match.team1, ...match.team2]] *)
Definition members (m : Match) : list string := team1 m ++ team2 m.

Definition set_players (ps : list Player) (st : State) : State :=
  mkState ps (objs st) (matches st) (currentMatches st) (matchQueue st)
    (rounds st) (settings st) (currentRound st) (rentalTimer st).

Definition set_objs (h : list Match) (st : State) : State :=
  mkState (players st) h (matches st) (currentMatches st) (matchQueue st)
    (rounds st) (settings st) (currentRound st) (rentalTimer st).

Definition set_currentMatches (a : list ref) (st : State) : State :=
  mkState (players st) (objs st) (matches st) a (matchQueue st)
    (rounds st) (settings st) (currentRound st) (rentalTimer st).

Definition set_settings (s : Settings) (st : State) : State :=
  mkState (players st) (objs st) (matches st) (currentMatches st) (matchQueue st)
    (rounds st) s (currentRound st) (rentalTimer st).

(** [saveSetting('multiCourt', value)] *)
Definition saveSetting_multiCourt (value : bool) (st : State) : State :=
  set_settings
    (mkSettings (matchType (settings st)) (pairingMode (settings st))
       (courtCount (settings st)) value)
    st.

(** ** Round generator *)

(** [match.roundId = round.id; match.roundNumber = state.currentRound] *)
Definition tag_round (rid : string) (n : Z) (m : Match) : Match :=
  mkMatch (m_id m) (m_type m) (team1 m) (team2 m) (status m) (court m)
    (m_createdAt m) (startedAt m) (completedAt m) (scores m) (winner m)
    (Some rid) (Some n).

Definition generateRound (st : State) : State * option Toast :=
  let playersNeeded : Z :=
    if decide (matchType (settings st) = doubles) then 4 else 2 in
  let availablePlayers := filter (λ p, isPlaying p = false) (players st) in
  if decide (Z.of_nat (length availablePlayers) < playersNeeded) then
    (st, Some (NeedPlayers playersNeeded, error))
  else
    let n := currentRound st + 1 in
    let rid := generateId 0 in
    let ms := tag_round rid n <$> generateMatches 1 (settings st) availablePlayers in
    let refs := seq (length (objs st)) (length ms) in
    let round := mkRound rid n (m_id <$> ms) (Date_now 0) in
    (mkState (players st) (objs st ++ ms) (matches st ++ refs) (currentMatches st)
       (matchQueue st ++ refs) (rounds st ++ [round]) (settings st) n
       (rentalTimer st),
     Some (RoundCreated n (length ms), success)).

(** ** Dispatch scheduler *)

Definition getAvailableCourts (st : State) : list Z :=
  let usedCourts : gset (option Z) :=
    list_to_set (court <$> omap (λ l, objs st !! l) (currentMatches st)) in
  filter (λ i, Some i ∉ usedCourts) (seqZ 1 (courtCount (settings st))).

(** The test of [state.matchQueue.findIndex(...)] in [startNextMatch]. *)
Definition can_start (st : State) (m : Match) : bool :=
  forallb
    (λ playerId,
       match find_player playerId (players st) with
       | Some player => negb (isPlaying player) || multiCourt (settings st)
       | None => false
       end)
    (members m).

Definition begin_match (courtNum : Z) (t : string) (m : Match) : Match :=
  mkMatch (m_id m) (m_type m) (team1 m) (team2 m) playing (Some courtNum)
    (m_createdAt m) (Some t) (completedAt m) (scores m) (winner m)
    (roundId m) (roundNumber m).

Definition begin_player (p : Player) : Player :=
  mkPlayer (p_id p) (p_name p) (p_level p) (matchCount p + 1) true
    (p_isResting p) (wins p) (losses p) (p_createdAt p).

(** One turn of the [for] loop once [matchIndex] has been found. *)
Definition start_match (courtNum : Z) (t : string) (matchIndex : nat) (st : State)
    : State :=
  match matchQueue st !! matchIndex with
  | Some l =>
      match objs st !! l with
      | Some m =>
          mkState
            (update_players (λ _, begin_player) (members m) (players st))
            (<[l := begin_match courtNum t m]> (objs st))
            (matches st)
            (currentMatches st ++ [l])
            (delete matchIndex (matchQueue st))
            (rounds st) (settings st) (currentRound st) (rentalTimer st)
      | None => st
      end
  | None => st
  end.

(** [for (const courtNum of availableCourts)], with [break] when no
    queued match can start. *)
Fixpoint start_loop (availableCourts : list Z) (matchesStarted : nat) (st : State)
    : State * nat :=
  match availableCourts with
  | [] => (st, matchesStarted)
  | courtNum :: rest =>
      match findIndex (on_obj (objs st) (can_start st)) (matchQueue st) with
      | None => (st, matchesStarted)
      | Some matchIndex =>
          start_loop rest (S matchesStarted)
            (start_match courtNum (Date_now matchesStarted) matchIndex st)
      end
  end.

Definition startNextMatch (st : State) : State * option Toast :=
  if decide (length (matchQueue st) = 0%nat) then (st, Some (QueueEmpty, info))
  else
    let availableCourts := getAvailableCourts st in
    if decide (length availableCourts = 0%nat) then (st, Some (CourtsFull, error))
    else
      let '(st', matchesStarted) := start_loop availableCourts 0 st in
      if decide (matchesStarted = 0%nat) then (st', Some (CannotStart, error))
      else (st', Some (MatchesStarted matchesStarted, success)).

(** ** Match lifecycle *)

Definition finish_match (t : string) (m : Match) : Match :=
  mkMatch (m_id m) (m_type m) (team1 m) (team2 m) completed (court m)
    (m_createdAt m) (startedAt m) (Some t) (scores m) (winner m)
    (roundId m) (roundNumber m).

Definition release_player (p : Player) : Player :=
  mkPlayer (p_id p) (p_name p) (p_level p) (matchCount p) false
    (p_isResting p) (wins p) (losses p) (p_createdAt p).

(** The body of [state.currentMatches.forEach(match => ...)]. *)
Definition complete_obj (t : string) (l : ref) (st : State) : State :=
  match objs st !! l with
  | Some m =>
      set_players (update_players (λ _, release_player) (members m) (players st))
        (set_objs (<[l := finish_match t m]> (objs st)) st)
  | None => st
  end.

Fixpoint complete_loop (k : nat) (a : list ref) (st : State) : State :=
  match a with
  | [] => st
  | l :: a' => complete_loop (S k) a' (complete_obj (Date_now k) l st)
  end.

Definition completeCurrentMatches (st : State) : State * option Toast :=
  if decide (length (currentMatches st) = 0%nat) then
    (st, Some (NoCurrentMatches, info))
  else
    (set_currentMatches [] (complete_loop 0 (currentMatches st) st),
     Some (MatchCompleted, success)).

Definition has_id (matchId : string) (m : Match) : bool :=
  bool_decide (m_id m = matchId).

Definition completeMatch (matchId : string) (st : State) : State * option Toast :=
  match findIndex (on_obj (objs st) (has_id matchId)) (currentMatches st) with
  | None => (st, None)
  | Some matchIndex =>
      match currentMatches st !! matchIndex with
      | Some l =>
          (complete_obj (Date_now 0) l
             (set_currentMatches (delete matchIndex (currentMatches st)) st),
           Some (MatchCompleted, success))
      | None => (st, None)
      end
  end.

(** [saveScore]: the two counters after the three [if ... else if ...]
    statements, one per set. *)
Definition count_set (score1 score2 : Z) (w : Z * Z) : Z * Z :=
  if score1 >? score2 then (w.1 + 1, w.2)
  else if score2 >? score1 then (w.1, w.2 + 1)
  else w.

Definition set_wins (s : Scores) : Z * Z :=
  count_set (score1Set3 s) (score2Set3 s)
    (count_set (score1Set2 s) (score2Set2 s)
       (count_set (score1Set1 s) (score2Set1 s) (0, 0))).

(** [team1Wins > team2Wins ? 'team1' : (team2Wins > team1Wins ? 'team2' : 'draw')] *)
Definition derive_winner (w : Z * Z) : Winner :=
  if w.1 >? w.2 then team1_wins
  else if w.2 >? w.1 then team2_wins
  else draw.

Definition score_match (t : string) (s : Scores) (m : Match) : Match :=
  mkMatch (m_id m) (m_type m) (team1 m) (team2 m) completed (court m)
    (m_createdAt m) (startedAt m) (Some t) (Some s)
    (Some (derive_winner (set_wins s))) (roundId m) (roundNumber m).

(** The body of the [forEach] of [saveScore] for a player that was
    found; [m] is the match after its winner has been set. *)
Definition score_player (m : Match) (playerId : string) (player : Player) : Player :=
  let w := default 0 (wins player) in
  let l := default 0 (losses player) in
  let '(w', l') :=
    if bool_decide (winner m = Some team1_wins) && bool_decide (playerId ∈ team1 m)
    then (w + 1, l)
    else if bool_decide (winner m = Some team2_wins) && bool_decide (playerId ∈ team2 m)
    then (w + 1, l)
    else if bool_decide (winner m ≠ Some draw) then (w, l + 1)
    else (w, l) in
  mkPlayer (p_id player) (p_name player) (p_level player) (matchCount player) false
    (p_isResting player) (Some w') (Some l') (p_createdAt player).

(** [saveScore]; [matchId] and [s] are the values read from the score
    form ([parseInt(...) || 0] makes every score an integer). *)
Definition saveScore (matchId : string) (s : Scores) (st : State)
    : State * option Toast :=
  match findIndex (on_obj (objs st) (has_id matchId)) (currentMatches st) with
  | None => (st, Some (MatchNotFound, error))
  | Some matchIndex =>
      match currentMatches st !! matchIndex with
      | Some l =>
          match objs st !! l with
          | Some m =>
              let m' := score_match (Date_now 0) s m in
              let heap := <[l := m']> (objs st) in
              let ps := update_players (score_player m') (members m') (players st) in
              let all :=
                match findIndex (on_obj heap (has_id matchId)) (matches st) with
                | Some mainMatchIndex => <[mainMatchIndex := l]> (matches st)
                | None => matches st
                end in
              (mkState ps heap all (delete matchIndex (currentMatches st))
                 (matchQueue st) (rounds st) (settings st) (currentRound st)
                 (rentalTimer st),
               Some (ScoreSaved, success))
          | None => (st, Some (MatchNotFound, error))
          end
      | None => (st, Some (MatchNotFound, error))
      end
  end.

(** ** Player management *)

(** [state.players.some(p => p.name.toLowerCase() === name.toLowerCase())] *)
Definition name_taken (name : string) (ps : list Player) : bool :=
  existsb (λ p, bool_decide (toLowerCase (p_name p) = toLowerCase name)) ps.

Definition new_player (k : nat) (name : string) (level : Level) : Player :=
  mkPlayer (generateId k) name level 0 false None None None (Date_now k).

(** [addPlayer]; [input] and [level] are the values of the form. *)
Definition addPlayer (input : string) (level : Level) (st : State)
    : State * option Toast :=
  let name := trim input in
  if decide (name = "") then (st, Some (NameRequired, error))
  else if name_taken name (players st) then (st, Some (DuplicateName, error))
  else
    (set_players (players st ++ [new_player 0 name level]) st,
     Some (PlayerAdded name, success)).

(** The [names.forEach] of [addBulkPlayers]: roster, [addedCount] and
    [skippedCount]. *)
Fixpoint bulk_loop (level : Level) (names : list string)
    (acc : list Player * nat * nat) : list Player * nat * nat :=
  match names with
  | [] => acc
  | name :: names' =>
      let '(ps, addedCount, skippedCount) := acc in
      if name_taken name ps then bulk_loop level names' (ps, addedCount, S skippedCount)
      else
        bulk_loop level names'
          (ps ++ [new_player addedCount name level], S addedCount, skippedCount)
  end.

(** [addBulkPlayers]; [lines] is [namesText.split('\n')]. *)
Definition addBulkPlayers (lines : list string) (level : Level) (st : State)
    : State * option Toast :=
  let names := filter (λ name, name ≠ "") (trim <$> lines) in
  if decide (length names = 0%nat) then (st, Some (NamesRequired, error))
  else
    let '(ps, addedCount, skippedCount) := bulk_loop level names (players st, 0, 0)%nat in
    let st' := set_players ps st in
    if decide (0 < addedCount ∧ 0 < skippedCount)%nat then
      (st', Some (BulkAddedSome addedCount skippedCount, info))
    else if decide (0 < addedCount)%nat then (st', Some (BulkAdded addedCount, success))
    else (st', Some (BulkAllDuplicates, error)).

Definition rename_player (newName : string) (newLevel : Level) (p : Player) : Player :=
  mkPlayer (p_id p) newName newLevel (matchCount p) (isPlaying p)
    (p_isResting p) (wins p) (losses p) (p_createdAt p).

(** [saveEditPlayer]; [id], [input] and [newLevel] are the values of the
    edit form. *)
Definition saveEditPlayer (id : string) (input : string) (newLevel : Level) (st : State)
    : State * option Toast :=
  let newName := trim input in
  if decide (newName = "") then (st, Some (NameRequired, error))
  else
    match find_player id (players st) with
    | None => (st, None)
    | Some _ =>
        (set_players (update_player id (rename_player newName newLevel) (players st)) st,
         Some (PlayerEdited, success))
    end.

End Scheduler.

(** ** Bulk import

    [doImport] works on the [state] object as such: [Object.assign]
    copies whatever top-level properties the parsed text has, known or
    not. Here the state is therefore the finite map of its own
    properties, and values are parsed JSON values (numbers as integers:
    only their truthiness is ever read here). *)

Module JsonImport.

#[warnings="-register-all"]
Inductive json :=
  | JNull
  | JBool (b : bool)
  | JNumber (n : Z)
  | JString (s : string)
  | JArray (a : list json)
  | JObject (props : list (string * json)).

(** What [textarea.value.trim()] and [JSON.parse] make of the text of the
    import form. *)
Inductive ImportText :=
  | Blank
  | Unparsable
  | Parsed (parsed : json).

(** The toast of [doImport]: "please enter data", "invalid data format"
    (the toast of the [catch] block) and "imported". *)
Inductive ImportOutcome :=
  | NoDataGiven
  | InvalidFormat
  | Imported.

(** [Object.assign(target, source)] on own properties: the properties of
    the source are set on the target one after the other, a later
    duplicate overwriting an earlier one. Setting [__proto__] reaches the
    setter of [Object.prototype] and creates no own property. *)
Definition assign_prop (target : gmap string json) (kv : string * json)
    : gmap string json :=
  if decide (kv.1 = "__proto__") then target else <[kv.1 := kv.2]> target.

Definition Object_assign (target : gmap string json) (source : list (string * json))
    : gmap string json :=
  foldl assign_prop target source.

(** A property read [v.key] on a non-null value; [None] is [undefined].
    Only objects built by [JSON.parse] have own properties with such
    names, and a later duplicate of a key is the one that stays. *)
Definition get_prop (key : string) (v : json) : option json :=
  match v with
  | JObject props => snd <$> last (filter (λ kv, kv.1 = key) props)
  | _ => None
  end.

(** [!!x] *)
Definition truthy (x : option json) : bool :=
  match x with
  | None | Some JNull => false
  | Some (JBool b) => b
  | Some (JNumber n) => negb (n =? 0)
  | Some (JString s) => negb (bool_decide (s = ""))
  | Some (JArray _) | Some (JObject _) => true
  end.

(** [Array.isArray(x)] *)
Definition Array_isArray (x : option json) : bool :=
  match x with
  | Some (JArray _) => true
  | _ => false
  end.

(** [doImport]. Reading [parsed.players] on [null] throws, and the
    [catch] block rejects as it does for the explicit [throw]. After
    [Object.assign] the [try] block goes on with [saveToStorage()],
    [closeModal(...)], [initializeUI()] and [renderAll()], which read
    the state and do not write it; [redraws s] says that they run to
    the end on the state [s]. When one of them throws, the [catch] block
    shows the toast of a rejected text, with the state already
    assigned. *)
Definition doImport (redraws : gmap string json → bool) (data : ImportText)
    (state : gmap string json) : gmap string json * ImportOutcome :=
  match data with
  | Blank => (state, NoDataGiven)
  | Unparsable => (state, InvalidFormat)
  | Parsed JNull => (state, InvalidFormat)
  | Parsed parsed =>
      let ps := get_prop "players" parsed in
      if negb (truthy ps) || negb (Array_isArray ps) then (state, InvalidFormat)
      else
        let assigned :=
          match parsed with
          | JObject props => Object_assign state props
          | _ => state
          end in
        (assigned, if redraws assigned then Imported else InvalidFormat)
  end.



End JsonImport.

(** ** Further operations on the session *)

(** Toasts of the operations below. *)
Inductive Notice :=
  | PlayerBusy
  | PlayerRemoved (name : string)
  | RestRefused
  | NowResting (name : string)
  | NowReady (name : string)
  | LevelChanged (level : Level)
  | MatchTypeChanged (type : MatchType)
  | QueueTooShort
  | QueueShuffled
  | AllCleared
  | TimerStarted.

Definition Noted : Type := Notice * ToastType.

(** [removePlayer]; [confirmed] is the answer to the [confirm(...)]
    dialog, which is only asked for a player that is not playing. *)
Definition removePlayer (id : string) (confirmed : bool) (st : State)
    : State * option Noted :=
  match find_player id (players st) with
  | None => (st, None)
  | Some player =>
      if isPlaying player then (st, Some (PlayerBusy, error))
      else if confirmed then
        (set_players (filter (λ p, p_id p ≠ id) (players st)) st,
         Some (PlayerRemoved (p_name player), info))
      else (st, None)
  end.

(** [player.isResting = !player.isResting]: the field exists afterwards,
    also when it did not before. *)
Definition toggle_rest (p : Player) : Player :=
  mkPlayer (p_id p) (p_name p) (p_level p) (matchCount p) (isPlaying p)
    (Some (negb (isResting p))) (wins p) (losses p) (p_createdAt p).

(** The player with the [isResting] field written out: the value it
    reads as, [false] where the field was absent. *)
Definition settle_rest (p : Player) : Player :=
  mkPlayer (p_id p) (p_name p) (p_level p) (matchCount p) (isPlaying p)
    (Some (isResting p)) (wins p) (losses p) (p_createdAt p).

Definition togglePlayerRest (id : string) (st : State) : State * option Noted :=
  match find_player id (players st) with
  | None => (st, None)
  | Some player =>
      if isPlaying player then (st, Some (RestRefused, error))
      else
        (set_players (update_player id toggle_rest (players st)) st,
         if isResting (toggle_rest player)
         then Some (NowResting (p_name player), info)
         else Some (NowReady (p_name player), success))
  end.

Definition set_level (newLevel : Level) (p : Player) : Player :=
  mkPlayer (p_id p) (p_name p) newLevel (matchCount p) (isPlaying p)
    (p_isResting p) (wins p) (losses p) (p_createdAt p).

Definition changePlayerLevel (id : string) (newLevel : Level) (st : State)
    : State * option Noted :=
  match find_player id (players st) with
  | None => (st, None)
  | Some _ =>
      (set_players (update_player id (set_level newLevel) (players st)) st,
       Some (LevelChanged newLevel, success))
  end.

Definition setMatchType (type : MatchType) (st : State) : State * option Noted :=
  (set_settings
     (mkSettings type (pairingMode (settings st)) (courtCount (settings st))
        (multiCourt (settings st)))
     st,
   Some (MatchTypeChanged type, success)).

(** [saveSetting('pairingMode', value)] and [saveSetting('courtCount', value)] *)
Definition saveSetting_pairingMode (value : PairingMode) (st : State) : State :=
  set_settings
    (mkSettings (matchType (settings st)) value (courtCount (settings st))
       (multiCourt (settings st)))
    st.

Definition saveSetting_courtCount (value : Z) (st : State) : State :=
  set_settings
    (mkSettings (matchType (settings st)) (pairingMode (settings st)) value
       (multiCourt (settings st)))
    st.

(** [adjustCourts]; [shown] is [parseInt(input.value)], the number in the
    court-count field. *)
Definition adjustCourts (shown delta : Z) (st : State) : State :=
  let newValue := Z.max 1 (Z.min 10 (shown + delta)) in
  saveSetting_courtCount newValue st.

Definition default_settings : Settings := mkSettings doubles random 2 false.

Definition default_timer : RentalTimer :=
  mkRentalTimer "duration" 120 "18:00" 7200 false (false, false, false) "closed".

(** [resetAll]; [confirmed] is the answer to the [confirm(...)] dialog.
    The match objects stay in the store, out of reach. *)
Definition resetAll (confirmed : bool) (st : State) : State * option Noted :=
  if confirmed then
    (mkState [] (objs st) [] [] [] [] default_settings 0 default_timer,
     Some (AllCleared, info))
  else (st, None).

Section Shuffling.
Context `{!Host}.

Definition shuffleQueue (st : State) : State * option Noted :=
  if decide (length (matchQueue st) < 2)%nat then (st, Some (QueueTooShort, info))
  else
    (mkState (players st) (objs st) (matches st) (currentMatches st)
       (shuffleArray 0 (matchQueue st)) (rounds st) (settings st) (currentRound st)
       (rentalTimer st),
     Some (QueueShuffled, success)).

End Shuffling.

(** ** Storage

    [saveToStorage] writes [JSON.stringify(state)]: every array is
    written with its own copy of each of its objects, so the text holds
    the match objects of [matches], [currentMatches] and [matchQueue]
    by value. *)
Record Saved := mkSaved {
  sv_players : list Player;
  sv_matches : list Match;
  sv_currentMatches : list Match;
  sv_matchQueue : list Match;
  sv_rounds : list Round;
  sv_settings : Settings;
  sv_currentRound : Z;
  sv_rentalTimer : RentalTimer
}.

Definition saveToStorage (st : State) : Saved :=
  mkSaved (players st)
    (omap (λ l, objs st !! l) (matches st))
    (omap (λ l, objs st !! l) (currentMatches st))
    (omap (λ l, objs st !! l) (matchQueue st))
    (rounds st) (settings st) (currentRound st) (rentalTimer st).

(** [loadFromStorage] on a text written by [saveToStorage]; [None] is
    an empty storage. [JSON.parse] builds a new object for every object
    of the text and [Object.assign] puts the new arrays in place of the
    old ones: the three arrays share no object afterwards, and the
    objects of the old arrays are out of reach. *)
Definition loadFromStorage (saved : option Saved) (st : State) : State * bool :=
  match saved with
  | Some parsed =>
      let ms := sv_matches parsed in
      let cs := sv_currentMatches parsed in
      let qs := sv_matchQueue parsed in
      (mkState (sv_players parsed) (ms ++ cs ++ qs)
         (seq 0 (length ms)) (seq (length ms) (length cs))
         (seq (length ms + length cs) (length qs))
         (sv_rounds parsed) (sv_settings parsed) (sv_currentRound parsed)
         (sv_rentalTimer parsed),
       true)
  | None => (st, false)
  end.


(** ** Rental timer

    The functions below only touch [state.rentalTimer]; they are given
    on that record. *)

Inductive TimerToast :=
  | Left15
  | Left10
  | Left5
  | TimeExpired.

Definition set_remaining (n : Z) (rt : RentalTimer) : RentalTimer :=
  mkRentalTimer (rt_mode rt) (rt_duration rt) (rt_endTime rt) n (rt_isRunning rt)
    (rt_alertsShown rt) (rt_widgetState rt).

Definition set_alerts (a : bool * bool * bool) (rt : RentalTimer) : RentalTimer :=
  mkRentalTimer (rt_mode rt) (rt_duration rt) (rt_endTime rt) (rt_remainingSeconds rt)
    (rt_isRunning rt) a (rt_widgetState rt).

Definition set_running (b : bool) (rt : RentalTimer) : RentalTimer :=
  mkRentalTimer (rt_mode rt) (rt_duration rt) (rt_endTime rt) (rt_remainingSeconds rt)
    b (rt_alertsShown rt) (rt_widgetState rt).

(** The duration is set, the countdown restarts from it and the alerts
    are armed again. *)
Definition restart_from (duration : Z) (rt : RentalTimer) : RentalTimer :=
  mkRentalTimer (rt_mode rt) duration (rt_endTime rt) (duration * 60) (rt_isRunning rt)
    (false, false, false) (rt_widgetState rt).

(** [parseInt(x) || d]; [None] is [NaN]. *)
Definition parsed_or (d : Z) (parsed : option Z) : Z :=
  match parsed with
  | Some n => if n =? 0 then d else n
  | None => d
  end.

Definition setRentalDuration (minutes : option Z) (rt : RentalTimer) : RentalTimer :=
  restart_from (parsed_or 120 minutes) rt.

(** [updateDurationFromInputs]; the arguments are [parseInt] of the two
    input fields. *)
Definition updateDurationFromInputs (hoursInput minutesInput : option Z)
    (rt : RentalTimer) : RentalTimer :=
  let hours := parsed_or 0 hoursInput in
  let minutes := parsed_or 0 minutesInput in
  let totalMinutes := hours * 60 + minutes in
  if 0 <? totalMinutes then restart_from totalMinutes rt else rt.

(** [updateDurationInputs]: the numbers written to the hours and minutes
    fields ([Math.floor(totalMinutes / 60)] and [totalMinutes % 60]). *)
Definition updateDurationInputs (rt : RentalTimer) : Z * Z :=
  (rt_duration rt `div` 60, rt_duration rt `rem` 60).

(** [checkRentalTimeAlerts] *)
Definition checkRentalTimeAlerts (rt : RentalTimer) : RentalTimer * list TimerToast :=
  let remaining := rt_remainingSeconds rt in
  let '(min15, min10, min5) := rt_alertsShown rt in
  if (remaining =? 900) && negb min15 then (set_alerts (true, min10, min5) rt, [Left15])
  else if (remaining =? 600) && negb min10 then (set_alerts (min15, true, min5) rt, [Left10])
  else if (remaining =? 300) && negb min5 then (set_alerts (min15, min10, true) rt, [Left5])
  else (rt, []).

(** The callback of [setInterval] in [startRentalTimer]. [diffSeconds]
    is [Math.floor((endTime - now) / 1000)] at the time of the call; it
    is only read in end-time mode. *)
Definition tick (diffSeconds : Z) (rt : RentalTimer) : RentalTimer * list TimerToast :=
  let rt1 :=
    if decide (rt_mode rt = "endtime") then set_remaining (Z.max 0 diffSeconds) rt
    else set_remaining (rt_remainingSeconds rt - 1) rt in
  if 0 <? rt_remainingSeconds rt1 then checkRentalTimeAlerts rt1
  else (set_running false rt1, [TimeExpired]).

(** The interval exists from [startRentalTimer] to [stopRentalTimer] or
    [pauseRentalTimer], that is while [isRunning] holds: one clock
    second per element of [diffs]. *)
Fixpoint seconds_pass (diffs : list Z) (rt : RentalTimer) : RentalTimer * list TimerToast :=
  match diffs with
  | [] => (rt, [])
  | d :: diffs' =>
      if rt_isRunning rt then
        let '(rt1, ts1) := tick d rt in
        let '(rt2, ts2) := seconds_pass diffs' rt1 in
        (rt2, ts1 ++ ts2)
      else seconds_pass diffs' rt
  end.

Definition pauseRentalTimer (rt : RentalTimer) : RentalTimer :=
  if rt_isRunning rt then set_running false rt else rt.

(** [recalculateEndTimeRemaining]; [diffSeconds] is
    [Math.floor((endTime - now) / 1000)] at the time of the call. *)
Definition recalculateEndTimeRemaining (diffSeconds : Z) (rt : RentalTimer)
    : RentalTimer :=
  set_remaining (Z.max 0 diffSeconds) rt.

(** [setRentalEndTime(timeStr)], with [diffSeconds] as above for the end
    time that [timeStr] names; [Math.ceil(diffSeconds / 60)] is the new
    duration. *)
Definition setRentalEndTime (timeStr : string) (diffSeconds : Z) (rt : RentalTimer)
    : RentalTimer :=
  mkRentalTimer (rt_mode rt) (- ((- diffSeconds) `div` 60)) timeStr
    (Z.max 0 diffSeconds) (rt_isRunning rt) (false, false, false) (rt_widgetState rt).

(** [setRentalMode(mode)]: the countdown is set again, from the stored
    duration or from the stored end time. *)
Definition setRentalMode (mode : string) (diffSeconds : Z) (rt : RentalTimer)
    : RentalTimer :=
  let rt1 :=
    mkRentalTimer mode (rt_duration rt) (rt_endTime rt) (rt_remainingSeconds rt)
      (rt_isRunning rt) (rt_alertsShown rt) (rt_widgetState rt) in
  if decide (mode = "duration") then setRentalDuration (Some (rt_duration rt1)) rt1
  else setRentalEndTime (rt_endTime rt1) diffSeconds rt1.

(** [startRentalTimer]: what it writes and its toast; the interval it
    creates is [seconds_pass]. *)
Definition startRentalTimer (diffSeconds : Z) (rt : RentalTimer)
    : RentalTimer * option Noted :=
  if rt_isRunning rt then (rt, None)
  else
    let rt1 :=
      if decide (rt_mode rt = "endtime") then recalculateEndTimeRemaining diffSeconds rt
      else rt in
    (set_running true rt1, Some (TimerStarted, success)).

(** [initRentalTimer], run after every page load; [clock k] is the
    [diffSeconds] of the [k]-th reading of the clock. Opening and
    minimizing the widget write back the [widgetState] they are called
    for. *)
Definition initRentalTimer (clock : nat → Z) (rt : RentalTimer)
    : RentalTimer * option Noted :=
  let rt1 :=
    setRentalMode (if decide (rt_mode rt = "") then "duration" else rt_mode rt)
      (clock 0%nat) rt in
  let rt2 :=
    if bool_decide (rt_mode rt1 = "endtime") && negb (rt_isRunning rt1)
    then recalculateEndTimeRemaining (clock 1%nat) rt1
    else rt1 in
  if rt_isRunning rt2 then startRentalTimer (clock 2%nat) (set_running false rt2)
  else (rt2, None).

(** The page is loaded again when [st] is the state saved last: the
    [DOMContentLoaded] handlers run [loadFromStorage()], draw the page
    and, a moment later, [initRentalTimer()]. *)
Definition reload (clock : nat → Z) (st : State) : State :=
  let st1 := (loadFromStorage (Some (saveToStorage st)) st).1 in
  mkState (players st1) (objs st1) (matches st1) (currentMatches st1) (matchQueue st1)
    (rounds st1) (settings st1) (currentRound st1)
    (initRentalTimer clock (rentalTimer st1)).1.

(** A toast can still come: its alert has not been shown, or, for the
    expiry toast, the interval is running. *)
Definition still_due (rt : RentalTimer) (t : TimerToast) : bool :=
  let '(min15, min10, min5) := rt_alertsShown rt in
  match t with
  | Left15 => negb min15
  | Left10 => negb min10
  | Left5 => negb min5
  | TimeExpired => rt_isRunning rt
  end.

(** [updateRentalTimerDisplay]: the three numbers of [timeString],
    hours, minutes and seconds. *)
Definition display_parts (remaining : Z) : Z * Z * Z :=
  (remaining `div` 3600, (remaining `rem` 3600) `div` 60, remaining `rem` 60).

(** ** Vocabulary of the specification *)

(** The matches being played: the objects [state.currentMatches] holds. *)
Definition playing_matches (st : State) : list Match :=
  omap (λ l, objs st !! l) (currentMatches st).

(** The [j]-th entry of the history, [state.matches[j]]. *)
Definition history_at (st : State) (j : nat) : option Match :=
  matches st !! j ≫= (λ l, objs st !! l).

(** The member ids of each match being played. *)
Definition playing_members (st : State) : list (list string) :=
  members <$> playing_matches st.

(** No string is in two lists of the sequence. *)
Fixpoint pairwise_disjoint (ls : list (list string)) : bool :=
  match ls with
  | [] => true
  | x :: rest =>
      forallb (λ y, forallb (λ a, negb (bool_decide (a ∈ y))) x) rest
      && pairwise_disjoint rest
  end.

(** No player id is in the teams of two different matches being played. *)
Definition no_double_booking (st : State) : bool :=
  pairwise_disjoint (playing_members st).

(** Every roster player who is in a match being played is marked busy. *)
Definition busy_recorded (st : State) : bool :=
  forallb
    (forallb
       (λ playerId,
          match find_player playerId (players st) with
          | Some player => isPlaying player
          | None => true
          end))
    (playing_members st).

(** The players not yet used, as the loop recomputes them each turn. *)
Definition unused (usedPlayers : gset string) (ps : list Player) : list Player :=
  filter (λ p, p_id p ∉ usedPlayers) ps.

(** What one turn of the loop emits: the first [playersPerMatch] unused
    players, cut in two halves. *)
Definition chunk (mt : MatchType) (shuffled : list Player) (used : gset string)
    (m : Match) : Prop :=
  let selected := take (playersPerMatch mt) (unused used shuffled) in
  (playersPerMatch mt ≤ length (unused used shuffled))%nat
  ∧ m_type m = mt
  ∧ status m = pending
  ∧ team1 m = p_id <$> take (playersPerTeam mt) selected
  ∧ team2 m = p_id <$> drop (playersPerTeam mt) selected.

(** What the successive updates for the ids of a list do to the player
    found under [x]. *)
Definition updates_of (F : string → Player → Player) (x : string) (ids : list string)
    (o : option Player) : option Player :=
  foldl (λ o y, if decide (y = x) then F y <$> o else o) o ids.



(** A court number is occupied when a match being played has it. *)
Definition occupied (st : State) (i : Z) : Prop :=
  Exists (λ m, court m = Some i) (playing_matches st).

Definition courts_full (st : State) : Prop :=
  ∀ i, 1 ≤ i ≤ courtCount (settings st) → occupied st i.

(** A match may start: each of its players is in the roster and is not
    busy, unless multi-court mode is on. *)
Definition startable (st : State) (m : Match) : Prop :=
  ∀ playerId, playerId ∈ members m →
    ∃ player, find_player playerId (players st) = Some player
      ∧ (isPlaying player = false ∨ multiCourt (settings st) = true).

Definition none_startable (st : State) : Prop :=
  ∀ l m, l ∈ matchQueue st → objs st !! l = Some m → ¬ startable st m.

(** The three recorded sets, as pairs (score of team 1, score of team 2),
    and the number of sets a team has won: those in which its score is
    strictly greater. *)
Definition recorded_sets (s : Scores) : list (Z * Z) :=
  [(score1Set1 s, score2Set1 s); (score1Set2 s, score2Set2 s);
   (score1Set3 s, score2Set3 s)].

Definition sets_won_by_team1 (s : Scores) : nat :=
  length (filter (λ ab, ab.2 < ab.1) (recorded_sets s)).

Definition sets_won_by_team2 (s : Scores) : nat :=
  length (filter (λ ab, ab.1 < ab.2) (recorded_sets s)).

(** [player.wins || 0] and [player.losses || 0] *)
Definition wins_of (p : Player) : Z := default 0 (wins p).
Definition losses_of (p : Player) : Z := default 0 (losses p).

Definition winning_team (w : Winner) (m : Match) : list string :=
  match w with team1_wins => team1 m | team2_wins => team2 m | draw => [] end.

Definition losing_team (w : Winner) (m : Match) : list string :=
  match w with team1_wins => team2 m | team2_wins => team1 m | draw => [] end.

(** ** Sessions

    A session is a sequence of user actions, each run by the operation
    it names with the host of that moment. Each of these operations
    calls [saveToStorage()] when it has changed the state, so the state
    a page load ([DoReload]) reads back is the state in memory. *)

Inductive Action :=
  | DoGenerateRound (h : Host)
  | DoStartNext (h : Host)
  | DoCompleteMatch (h : Host) (matchId : string)
  | DoCompleteAll (h : Host)
  | DoSaveScore (h : Host) (matchId : string) (s : Scores)
  | DoAddPlayer (h : Host) (input : string) (level : Level)
  | DoAddBulk (h : Host) (lines : list string) (level : Level)
  | DoEditPlayer (h : Host) (id input : string) (level : Level)
  | DoRemovePlayer (id : string) (confirmed : bool)
  | DoToggleRest (id : string)
  | DoChangeLevel (id : string) (level : Level)
  | DoSetMatchType (type : MatchType)
  | DoSetPairingMode (mode : PairingMode)
  | DoAdjustCourts (shown delta : Z)
  | DoSetMultiCourt (value : bool)
  | DoShuffleQueue (h : Host)
  | DoResetAll (confirmed : bool)
  | DoReload (clock : nat → Z).

Definition perform (a : Action) (st : State) : State :=
  match a with
  | DoGenerateRound h => (generateRound (H := h) st).1
  | DoStartNext h => (startNextMatch (H := h) st).1
  | DoCompleteMatch h matchId => (completeMatch (H := h) matchId st).1
  | DoCompleteAll h => (completeCurrentMatches (H := h) st).1
  | DoSaveScore h matchId s => (saveScore (H := h) matchId s st).1
  | DoAddPlayer h input level => (addPlayer (H := h) input level st).1
  | DoAddBulk h lines level => (addBulkPlayers (H := h) lines level st).1
  | DoEditPlayer h id input level => (saveEditPlayer (H := h) id input level st).1
  | DoRemovePlayer id confirmed => (removePlayer id confirmed st).1
  | DoToggleRest id => (togglePlayerRest id st).1
  | DoChangeLevel id level => (changePlayerLevel id level st).1
  | DoSetMatchType type => (setMatchType type st).1
  | DoSetPairingMode mode => saveSetting_pairingMode mode st
  | DoAdjustCourts shown delta => adjustCourts shown delta st
  | DoSetMultiCourt value => saveSetting_multiCourt value st
  | DoShuffleQueue h => (shuffleQueue (H := h) st).1
  | DoResetAll confirmed => (resetAll confirmed st).1
  | DoReload clock => reload clock st
  end.

Definition session (acts : list Action) (st : State) : State :=
  foldl (λ s a, perform a s) st acts.

(** The action switches multi-court mode on. *)
Definition enables_multiCourt (a : Action) : bool :=
  match a with
  | DoSetMultiCourt true => true
  | _ => false
  end.

(** The references the dispatcher holds: matches being played, then
    queued matches. *)
Definition dispatch_refs (st : State) : list ref :=
  currentMatches st ++ matchQueue st.

(** Every reference of the dispatcher points into the store, no object
    is referenced twice, and no two matches being played have the same
    court. *)
Definition courts_sound (st : State) : Prop :=
  Forall (λ l, l < length (objs st))%nat (dispatch_refs st)
  ∧ NoDup (dispatch_refs st)
  ∧ NoDup (court <$> playing_matches st).

(** Every member of a match being played is in the roster and marked
    busy. *)
Definition members_busy (st : State) : bool :=
  forallb
    (forallb
       (λ playerId,
          match find_player playerId (players st) with
          | Some player => isPlaying player
          | None => false
          end))
    (playing_members st).

(** No player is on two courts, and the busy flags say who is on one. *)
Definition one_court_each (st : State) : Prop :=
  no_double_booking st = true ∧ members_busy st = true.


(** ** A concrete host, for running the model

    Ids and timestamps are numbered, every random draw is its own index,
    and the string built-ins are their ASCII versions. *)

Definition ascii_lower (c : ascii) : ascii :=
  let n := nat_of_ascii c in
  if decide (65 ≤ n ≤ 90)%nat then ascii_of_nat (n + 32) else c.

Fixpoint ascii_toLowerCase (s : string) : string :=
  match s with
  | EmptyString => EmptyString
  | String c s' => String (ascii_lower c) (ascii_toLowerCase s')
  end.

Fixpoint trim_start (s : string) : string :=
  match s with
  | String " " s' => trim_start s'
  | _ => s
  end.

Fixpoint trim_end (s : string) : string :=
  match s with
  | EmptyString => EmptyString
  | String c s' =>
      match trim_end s' with
      | EmptyString => if decide (c = " "%char) then EmptyString else String c EmptyString
      | t => String c t
      end
  end.

(** The host of the [op]-th operation of a session. *)
Definition numbered_host (op : nat) : Host := {|
  Math_random := λ k, k;
  generateId := λ k, "id" +:+ pretty op +:+ "-" +:+ pretty k;
  Date_now := λ k, "t" +:+ pretty op +:+ "-" +:+ pretty k;
  trim := λ s, trim_end (trim_start s);
  toLowerCase := ascii_toLowerCase
|}.

Definition idle_player (name : string) (l : Level) (n : Z) : Player :=
  mkPlayer name name l n false None None None "t".

Definition resting_player (name : string) (l : Level) (n : Z) : Player :=
  mkPlayer name name l n false (Some true) None None "t".

Definition demo_timer : RentalTimer :=
  mkRentalTimer "duration" 120 "18:00" 7200 false (false, false, false) "closed".

Definition initial_state (s : Settings) (ps : list Player) : State :=
  mkState ps [] [] [] [] [] s 0 demo_timer.

Definition four_players : list Player :=
  [idle_player "pro" pro 0; idle_player "advanced" advanced 0;
   idle_player "intermediate" intermediate 0; idle_player "beginner" beginner 0].

(** Two rounds generated one after the other from the same four idle
    players: both queued matches hold the four of them. *)
Definition two_rounds_queued (s : Settings) : State :=
  let st1 := (generateRound (H := numbered_host 1) (initial_state s four_players)).1 in
  (generateRound (H := numbered_host 2) st1).1.

(** One court in use: the first queued match has started, the second
    waits for its players. *)
Definition one_court_busy : State :=
  (startNextMatch (H := numbered_host 3)
     (two_rounds_queued (mkSettings doubles balanced 1 false))).1.

(** With multi-court mode on, both matches start, on courts 1 and 2. *)
Definition both_courts_busy : State :=
  (startNextMatch (H := numbered_host 3)
     (two_rounds_queued (mkSettings doubles balanced 2 true))).1.

(** The second match is then completed, which releases the four
    players although the first match is still being played; multi-court
    mode is switched off and a third round is generated. *)
Definition released_while_playing : State :=
  let st4 := (completeMatch (H := numbered_host 4) "id2-1" both_courts_busy).1 in
  (generateRound (H := numbered_host 5) (saveSetting_multiCourt false st4)).1.

(** The score sheet 21-19, 18-21, 21-15. *)
Definition three_sets : Scores := mkScores 21 18 21 19 21 15.

(** A roster of two. *)
Definition ann_and_bob : State :=
  initial_state (mkSettings doubles random 2 false)
    [idle_player "Ann" beginner 0; idle_player "Bob" pro 0].



(** Three idle players and a resting one. *)
Definition one_resting : State :=
  initial_state (mkSettings doubles random 2 false)
    [idle_player "a" beginner 0; idle_player "b" beginner 0;
     idle_player "c" beginner 0; resting_player "d" beginner 0].

(** Three players with 2, 0 and 1 matches behind them. *)
Definition uneven_pool : list Player :=
  [idle_player "a" beginner 2; idle_player "b" beginner 0; idle_player "c" beginner 1].

(** An evening at the club, from the empty session: five players are
    typed in, singles on two courts, a round is generated and started,
    one score is entered, the page is reloaded, a player rests, a second
    round is generated, shuffled and started, and everything is
    completed. *)
Definition opening : State := initial_state default_settings [].

Definition club_night : list Action :=
  [DoAddBulk (numbered_host 1) ["Ann"; "Bob"; " Cid "; "ann"; "Dee"; "Eve"] beginner;
   DoSetMatchType singles;
   DoAdjustCourts 2 0;
   DoGenerateRound (numbered_host 2);
   DoStartNext (numbered_host 3);
   DoSaveScore (numbered_host 4) "id2-1" three_sets;
   DoReload (λ _, 0);
   DoToggleRest "id1-0";
   DoGenerateRound (numbered_host 5);
   DoShuffleQueue (numbered_host 6);
   DoStartNext (numbered_host 7);
   DoCompleteAll (numbered_host 8)].

(** A running timer in duration mode with three seconds left. *)
Definition last_seconds : RentalTimer :=
  mkRentalTimer "duration" 1 "18:00" 3 true (false, false, false) "closed".


(** * Properties *)

Section Properties.
Context `{!Host}.

(** ** The orderings of the pairing engine are permutations *)

Lemma sort_insert_perm {A} (cmp : A → A → Z) x l : sort_insert cmp x l ≡ₚ x :: l.
Proof.
  induction l as [|y l IH]; simpl; [done|].
  destruct (cmp x y <=? 0); [done|].
  rewrite IH. apply Permutation_swap.
Qed.

Lemma Array_sort_perm {A} (cmp : A → A → Z) l : Array_sort cmp l ≡ₚ l.
Proof.
  induction l as [|x l IH]; simpl; [done|].
  rewrite sort_insert_perm. by f_equiv.
Qed.

Lemma insert_head_perm {A} (x y : A) l j :
  l !! j = Some y → y :: <[j := x]> l ≡ₚ x :: l.
Proof.
  revert j. induction l as [|z l IH]; intros [|j] Hj; simplify_eq/=; try done.
  - apply Permutation_swap.
  - rewrite Permutation_swap. rewrite (IH j Hj). apply Permutation_swap.
Qed.

Lemma swap_perm {A} i j (l : list A) : swap i j l ≡ₚ l.
Proof.
  unfold swap.
  destruct (l !! i) as [x|] eqn:Hi; [|done].
  destruct (l !! j) as [y|] eqn:Hj; [|done].
  revert i j Hi Hj. induction l as [|z l IH]; intros [|i] [|j] Hi Hj;
    simplify_eq/=; try done.
  - by apply insert_head_perm.
  - by apply insert_head_perm.
  - f_equiv. by apply IH.
Qed.

Lemma shuffle_loop_perm {A} i k (l : list A) : shuffle_loop i k l ≡ₚ l.
Proof.
  revert k l. induction i as [|i IH]; intros k l; simpl; [done|].
  rewrite IH. apply swap_perm.
Qed.

Lemma shuffleArray_perm {A} k (l : list A) : shuffleArray k l ≡ₚ l.
Proof. apply shuffle_loop_perm. Qed.

Lemma pop_Some {A} (a a' : list A) x : pop a = Some (a', x) → a = a' ++ [x].
Proof.
  unfold pop. destruct (last a) as [y|] eqn:Hl; [|done].
  intros [= <- <-]. apply last_Some in Hl as [l' ->].
  rewrite length_app, Nat.add_1_r. simpl. by rewrite take_app_length.
Qed.

Lemma pop_length {A} (a : list A) :
  (0 < length a)%nat → ∃ a' x, pop a = Some (a', x) ∧ length a = S (length a').
Proof.
  intros Hlen. destruct (last a) as [x|] eqn:Hl.
  - unfold pop. rewrite Hl. eexists _, _. split; [done|].
    rewrite length_take. lia.
  - apply last_None in Hl. subst. simpl in Hlen. lia.
Qed.

Lemma balance_loop_perm fuel sorted result :
  balance_loop fuel sorted result ≡ₚ result ++ sorted.
Proof.
  revert sorted result. induction fuel as [|fuel IH]; intros sorted result; simpl; [done|].
  case_decide; [|done].
  destruct sorted as [|strongest s1]; simpl; [done|].
  destruct (pop s1) as [[s2 weakest]|] eqn:H1; [|done].
  destruct s2 as [|secondStrongest s3]; simpl; [done|].
  destruct (pop s3) as [[s4 secondWeakest]|] eqn:H3; [|done].
  rewrite IH. apply pop_Some in H1, H3. simplify_eq/=.
  rewrite <-!app_assoc. f_equiv. simpl. f_equiv.
  rewrite (Permutation_app_comm s4). simpl. apply Permutation_swap.
Qed.

(** The fuel [length sorted] never runs out: any larger fuel gives the
    same result. *)
Lemma balance_loop_fuel fuel sorted result :
  (length sorted ≤ fuel)%nat →
  balance_loop fuel sorted result = balance_loop (length sorted) sorted result.
Proof.
  revert sorted result.
  induction (lt_wf fuel) as [fuel _ IH]. intros sorted result Hlen.
  destruct fuel as [|fuel]; [by replace (length sorted) with 0%nat by lia|].
  destruct (length sorted) as [|n] eqn:Hn; simpl.
  { rewrite Hn. by case_decide; [lia|]. }
  rewrite Hn. case_decide; [|done].
  destruct sorted as [|strongest s1]; simpl; [done|].
  destruct (pop_length s1) as (s2 & weakest & -> & H2); [simpl in *; lia|].
  destruct s2 as [|secondStrongest s3]; simpl; [done|].
  destruct (pop_length s3) as (s4 & secondWeakest & -> & H4); [simpl in *; lia|].
  simpl in *. rewrite (IH fuel), (IH n); [done|lia..].
Qed.

Lemma balancePlayers_perm mt ps : balancePlayers mt ps ≡ₚ ps.
Proof.
  destruct mt; simpl.
  - apply Array_sort_perm.
  - rewrite balance_loop_perm. simpl. apply Array_sort_perm.
Qed.

Lemma group_perm ps :
  group pro ps ++ group advanced ps ++ group intermediate ps ++ group beginner ps ≡ₚ ps.
Proof.
  unfold group. induction ps as [|p ps IH]; [done|].
  rewrite !filter_cons.
  destruct (p_level p) eqn:Hl; repeat case_decide; try done; simpl;
    rewrite <-?Permutation_middle; by f_equiv.
Qed.

Lemma separateByLevel_perm k ps : separateByLevel k ps ≡ₚ ps.
Proof.
  unfold separateByLevel. rewrite !shuffleArray_perm. apply group_perm.
Qed.

Lemma ordering_perm s (pool : list Player) :
  Array_sort (λ a b, matchCount a - matchCount b)
    (match pairingMode s with
     | random => shuffleArray 0 pool
     | balanced => balancePlayers (matchType s) pool
     | separate => separateByLevel 0 pool
     end) ≡ₚ pool.
Proof.
  rewrite Array_sort_perm. destruct (pairingMode s).
  - apply shuffleArray_perm.
  - apply balancePlayers_perm.
  - apply separateByLevel_perm.
Qed.

(** ** Match formation *)

Lemma playersPerTeam_half mt : (playersPerMatch mt = playersPerTeam mt + playersPerTeam mt)%nat.
Proof. by destruct mt. Qed.

Lemma unused_union used (sel ps : list Player) :
  unused (used ∪ list_to_set (p_id <$> sel)) ps
  = filter (λ p, p_id p ∉ p_id <$> sel) (unused used ps).
Proof.
  unfold unused. rewrite list_filter_filter. apply list_filter_iff.
  intros p. rewrite not_elem_of_union, elem_of_list_to_set. tauto.
Qed.

Lemma elem_of_concat {A} (x : A) (ls : list (list A)) :
  x ∈ concat ls ↔ ∃ l, l ∈ ls ∧ x ∈ l.
Proof.
  induction ls as [|l ls IH]; simpl.
  - split; [by intros ?%elem_of_nil|]. by intros (l & ?%elem_of_nil & _).
  - rewrite elem_of_app, IH. split.
    + intros [Hx|(l' & Hl' & Hx)]; [exists l|exists l']; split; try done.
      * apply list_elem_of_here.
      * by apply list_elem_of_further.
    + intros (l' & [->|Hl']%elem_of_cons & Hx); [by left|right; eauto].
Qed.

Lemma filter_none {A} (P : A → Prop) `{!∀ x, Decision (P x)} (l : list A) :
  Forall (λ x, ¬ P x) l → filter P l = [].
Proof. induction 1; [done|]. by rewrite filter_cons_False. Qed.

Lemma unused_shrinks used n (ps : list Player) :
  (n ≤ length (unused used ps))%nat →
  (length (unused (used ∪ list_to_set (p_id <$> take n (unused used ps))) ps) + n
   ≤ length (unused used ps))%nat.
Proof.
  intros Hn. rewrite unused_union.
  generalize dependent (unused used ps). intros av Hn.
  assert (Hgen : ∀ sel rest : list Player,
    (length (filter (λ p, p_id p ∉ p_id <$> sel) (sel ++ rest)) ≤ length rest)%nat).
  { intros sel rest. rewrite filter_app, length_app, filter_none.
    - apply length_filter.
    - apply Forall_forall. intros p Hp Hnot. apply Hnot.
      by apply list_elem_of_fmap_2. }
  specialize (Hgen (take n av) (drop n av)).
  rewrite take_drop, length_drop in Hgen. lia.
Qed.

Lemma match_loop_chunks calls mt todo k shuffled used :
  Forall (λ m, ∃ used', chunk mt shuffled used' m)
    (match_loop calls mt todo k shuffled used).
Proof.
  revert k used. induction todo as [|todo IH]; intros k used; simpl; [done|].
  case_decide; [done|]. constructor; [|apply IH].
  exists used. unfold chunk, unused. simpl. repeat split; try done. lia.
Qed.

Lemma chunk_members mt shuffled used m :
  chunk mt shuffled used m →
  members m = p_id <$> take (playersPerMatch mt) (unused used shuffled).
Proof.
  intros (_ & _ & _ & H1 & H2). unfold members.
  by rewrite H1, H2, <-fmap_app, take_drop.
Qed.

Lemma chunk_sizes mt shuffled used m :
  chunk mt shuffled used m →
  length (team1 m) = playersPerTeam mt ∧ length (team2 m) = playersPerTeam mt.
Proof.
  intros (Hlen & _ & _ & -> & ->).
  rewrite !length_fmap, length_drop, !length_take.
  pose proof (playersPerTeam_half mt). lia.
Qed.

Lemma unused_ids_NoDup used (ps : list Player) n :
  NoDup (p_id <$> ps) → NoDup (p_id <$> take n (unused used ps)).
Proof.
  intros Hnd. eapply sublist_NoDup; [exact Hnd|].
  apply fmap_sublist. etrans; [apply sublist_take|]. apply sublist_filter.
Qed.

Lemma chunk_disjoint mt shuffled used m :
  NoDup (p_id <$> shuffled) → chunk mt shuffled used m →
  NoDup (members m) ∧ ∀ x, x ∈ team1 m → x ∉ team2 m.
Proof.
  intros Hnd Hc. pose proof (chunk_members _ _ _ _ Hc) as Hm.
  assert (NoDup (members m)) as Hnd'.
  { rewrite Hm. by apply unused_ids_NoDup. }
  split; [done|]. unfold members in Hnd'. apply NoDup_app in Hnd'. tauto.
Qed.

Lemma match_loop_length calls mt todo k shuffled used :
  (length (match_loop calls mt todo k shuffled used) ≤ todo)%nat.
Proof.
  revert k used. induction todo as [|todo IH]; intros k used; simpl; [done|].
  case_decide; simpl; [lia|]. specialize (IH (S k)
    (used ∪ list_to_set (p_id <$> take (playersPerMatch mt)
       (filter (λ p, p_id p ∉ used) shuffled)))). lia.
Qed.

Lemma match_loop_consumes calls mt todo k shuffled used :
  (length (match_loop calls mt todo k shuffled used) * playersPerMatch mt
   ≤ length (unused used shuffled))%nat.
Proof.
  revert k used. induction todo as [|todo IH]; intros k used; simpl; [lia|].
  case_decide; simpl; [lia|].
  pose proof (unused_shrinks used (playersPerMatch mt) shuffled) as Hs.
  unfold unused in *.
  specialize (IH (S k) (used ∪ list_to_set (p_id <$> take (playersPerMatch mt)
       (filter (λ p, p_id p ∉ used) shuffled)))). lia.
Qed.

Lemma match_loop_members calls mt todo k shuffled used :
  NoDup (p_id <$> shuffled) →
  NoDup (concat (members <$> match_loop calls mt todo k shuffled used))
  ∧ ∀ x, x ∈ concat (members <$> match_loop calls mt todo k shuffled used) →
         (x ∉ used) ∧ x ∈ (p_id <$> shuffled).
Proof.
  intros Hnd. revert k used.
  induction todo as [|todo IH]; intros k used; simpl.
  { split; [constructor|]. intros x Hx. by apply elem_of_nil in Hx. }
  case_decide; simpl.
  { split; [constructor|]. intros x Hx. by apply elem_of_nil in Hx. }
  set (sel := take (playersPerMatch mt) (filter (λ p, p_id p ∉ used) shuffled)).
  destruct (IH (S k) (used ∪ list_to_set (p_id <$> sel))) as [IH1 IH2].
  unfold members at 1 3. simpl. rewrite <-fmap_app, take_drop.
  assert (Hsel : ∀ x, x ∈ p_id <$> sel → (x ∉ used) ∧ x ∈ (p_id <$> shuffled)).
  { intros x (p & -> & Hp)%list_elem_of_fmap.
    apply subseteq_take, list_elem_of_filter in Hp as [Hp1 Hp2].
    split; [done|]. by apply list_elem_of_fmap_2. }
  split.
  - apply NoDup_app. split; [by apply unused_ids_NoDup|]. split; [|done].
    intros x Hx Hx'. apply IH2 in Hx' as [Hx' _]. apply Hx'.
    apply elem_of_union_r. by apply elem_of_list_to_set.
  - intros x [Hx|Hx]%elem_of_app; [by apply Hsel|].
    apply IH2 in Hx as [Hx1 Hx2]. split; [|done].
    intros Hu. apply Hx1. by apply elem_of_union_l.
Qed.

Lemma unused_empty (ps : list Player) : unused ∅ ps = ps.
Proof.
  unfold unused. induction ps as [|p ps IH]; [done|].
  rewrite filter_cons_True; [by rewrite IH|]. apply not_elem_of_empty.
Qed.

Lemma generateMatches_chunks calls s pool :
  ∃ shuffled, shuffled ≡ₚ filter (λ p, isResting p = false) pool
    ∧ generateMatches calls s pool
      = match_loop calls (matchType s) (Z.to_nat (courtCount s)) 0 shuffled ∅.
Proof. eexists. split; [|done]. apply ordering_perm. Qed.

Lemma ids_NoDup_filter (P : Player → Prop) `{!∀ p, Decision (P p)} (ps : list Player) :
  NoDup (p_id <$> ps) → NoDup (p_id <$> filter P ps).
Proof.
  intros Hnd. eapply sublist_NoDup; [exact Hnd|].
  apply fmap_sublist, sublist_filter.
Qed.

(** C6. Every match the pairing engine emits for a pool with pairwise
    distinct player ids, in any pairing mode, has two teams of the size
    the match type requires (2 for doubles, 1 for singles), and no
    player id is in both teams. *)
Theorem emitted_teams_well_formed calls s (pool : list Player) :
  NoDup (p_id <$> pool) →
  Forall (λ m, m_type m = matchType s
             ∧ length (team1 m) = playersPerTeam (matchType s)
             ∧ length (team2 m) = playersPerTeam (matchType s)
             ∧ ∀ x, x ∈ team1 m → x ∉ team2 m)
    (generateMatches calls s pool).
Proof.
  intros Hnd. destruct (generateMatches_chunks calls s pool) as (sh & Hperm & ->).
  assert (NoDup (p_id <$> sh)) as Hsh.
  { rewrite Hperm. by apply ids_NoDup_filter. }
  eapply Forall_impl; [apply match_loop_chunks|].
  intros m [used Hc]. split; [apply Hc|].
  destruct (chunk_sizes _ _ _ _ Hc) as [H1 H2].
  destruct (chunk_disjoint _ _ _ _ Hsh Hc) as [_ H3]. done.
Qed.

(** C7. The pairing engine emits at most [courtCount] matches and at
    most floor(eligible / playersPerMatch) matches, where the eligible
    players are the non-resting ones of the pool it is given; each
    match takes [playersPerMatch] of them and no player id is taken
    twice in the round. *)
Theorem emitted_matches_bounded calls s (pool : list Player) :
  0 ≤ courtCount s →
  NoDup (p_id <$> pool) →
  let eligible := filter (λ p, isResting p = false) pool in
  let ms := generateMatches calls s pool in
  Z.of_nat (length ms) ≤ courtCount s
  ∧ (length ms ≤ length eligible `div` playersPerMatch (matchType s))%nat
  ∧ Forall (λ m, length (members m) = playersPerMatch (matchType s)
               ∧ ∀ x, x ∈ members m → x ∈ (p_id <$> eligible)) ms
  ∧ NoDup (concat (members <$> ms)).
Proof.
  intros Hc Hnd eligible ms. subst ms.
  destruct (generateMatches_chunks calls s pool) as (sh & Hperm & ->).
  fold eligible in Hperm.
  assert (NoDup (p_id <$> sh)) as Hsh.
  { rewrite Hperm. by apply ids_NoDup_filter. }
  destruct (match_loop_members calls (matchType s) (Z.to_nat (courtCount s)) 0 sh ∅ Hsh)
    as [Hm1 Hm2].
  split; [|split; [|split; [|done]]].
  - pose proof (match_loop_length calls (matchType s) (Z.to_nat (courtCount s)) 0 sh ∅).
    lia.
  - pose proof (match_loop_consumes calls (matchType s) (Z.to_nat (courtCount s)) 0 sh ∅)
      as Hlen.
    rewrite unused_empty, (Permutation_length Hperm) in Hlen.
    apply Nat.div_le_lower_bound; [by destruct (matchType s)|]. lia.
  - apply Forall_forall. intros m Hm. split.
    + pose proof (match_loop_chunks calls (matchType s) (Z.to_nat (courtCount s)) 0 sh ∅)
        as Hch.
      rewrite Forall_forall in Hch. destruct (Hch m Hm) as [used Hch'].
      destruct (chunk_sizes _ _ _ _ Hch') as [H1 H2].
      unfold members. rewrite length_app, H1, H2. by rewrite playersPerTeam_half.
    + intros x Hx. destruct (Hm2 x) as [_ Hx'].
      * apply elem_of_concat. exists (members m).
        split; [by apply list_elem_of_fmap_2|done].
      * by rewrite <-Hperm.
Qed.

(** ** Array searches *)

Lemma findIndex_None {A} (f : A → bool) (a : list A) :
  findIndex f a = None ↔ ∀ x, x ∈ a → f x = false.
Proof.
  induction a as [|y a IH]; simpl.
  - split; [|done]. by intros _ x ?%elem_of_nil.
  - destruct (f y) eqn:Hy.
    + split; [done|]. intros Hall. rewrite Hall in Hy; [done|apply list_elem_of_here].
    + rewrite fmap_None, IH. split.
      * intros Hall x [->|Hx]%elem_of_cons; auto.
      * intros Hall x Hx. by apply Hall, list_elem_of_further.
Qed.

Lemma findIndex_Some {A} (f : A → bool) (a : list A) i :
  findIndex f a = Some i → ∃ x, a !! i = Some x ∧ f x = true.
Proof.
  revert i. induction a as [|y a IH]; intros i; simpl; [done|].
  destruct (f y) eqn:Hy.
  - intros [= <-]. by exists y.
  - destruct (findIndex f a) as [j|]; [|done]. intros [= <-]. by apply IH.
Qed.

Lemma on_obj_true heap f l :
  on_obj heap f l = true ↔ ∃ m, heap !! l = Some m ∧ f m = true.
Proof.
  unfold on_obj. destruct (heap !! l) as [m|]; simpl.
  - split; [by exists m|]. by intros (? & [= <-] & ?).
  - split; [done|]. by intros (? & ? & ?).
Qed.

Lemma can_start_startable st m : can_start st m = true ↔ startable st m.
Proof.
  unfold can_start, startable. rewrite forallb_forall. split.
  - intros Hall x Hx. apply list_elem_of_In, Hall in Hx.
    destruct (find_player x (players st)) as [p|]; [|done].
    exists p. split; [done|]. apply orb_true_iff in Hx as [Hx|Hx]; [left|by right].
    by apply negb_true_iff.
  - intros Hall x Hx. apply list_elem_of_In, Hall in Hx as (p & -> & Hp).
    apply orb_true_iff. destruct Hp as [Hp|Hp]; [left|by right].
    by apply negb_true_iff.
Qed.

(** ** Free courts *)

Lemma occupied_iff st i :
  occupied st i ↔ Some i ∈ (list_to_set (court <$> playing_matches st) : gset (option Z)).
Proof.
  unfold occupied.
  rewrite Exists_exists, elem_of_list_to_set, list_elem_of_fmap.
  split; intros (m & ? & ?); by exists m.
Qed.

Lemma free_court st i :
  i ∈ getAvailableCourts st ↔ 1 ≤ i ≤ courtCount (settings st) ∧ ¬ occupied st i.
Proof.
  rewrite occupied_iff. unfold getAvailableCourts.
  rewrite list_elem_of_filter, elem_of_seqZ. fold (playing_matches st).
  split; intros [? ?]; split; done || lia.
Qed.

Lemma no_free_court st : getAvailableCourts st = [] ↔ courts_full st.
Proof.
  unfold courts_full. split.
  - intros Hnil i Hi. destruct (decide (occupied st i)) as [|Hfree]; [done|].
    assert (i ∈ getAvailableCourts st) as Hin by (by apply free_court).
    rewrite Hnil in Hin. by apply elem_of_nil in Hin.
  - intros Hfull. destruct (getAvailableCourts st) as [|i a] eqn:Ha; [done|].
    assert (i ∈ getAvailableCourts st) as Hi by (rewrite Ha; apply list_elem_of_here).
    apply free_court in Hi as [Hi Hfree]. destruct Hfree. by apply Hfull.
Qed.

(** A check of [courts_full] that can be run. *)
Lemma courts_full_run st :
  Forall (occupied st) (seqZ 1 (courtCount (settings st))) → courts_full st.
Proof.
  intros Hall i Hi. rewrite Forall_forall in Hall. apply Hall, elem_of_seqZ. lia.
Qed.

(** What [generateRound] does when the guard fires. *)
Lemma generateRound_too_few st :
  let playersNeeded := if decide (matchType (settings st) = doubles) then 4 else 2 in
  Z.of_nat (length (filter (λ p, isPlaying p = false) (players st))) < playersNeeded →
  generateRound st = (st, Some (NeedPlayers playersNeeded, error)).
Proof. intros n Hfew. unfold generateRound. by rewrite decide_True. Qed.

(** ** Dispatch without capacity *)

Lemma none_startable_findIndex st :
  none_startable st →
  findIndex (on_obj (objs st) (can_start st)) (matchQueue st) = None.
Proof.
  intros Hnone. apply findIndex_None. intros l Hl.
  destruct (on_obj (objs st) (can_start st) l) eqn:Hon; [|done].
  apply on_obj_true in Hon as (m & Hm & Hs).
  apply can_start_startable in Hs. by destruct (Hnone l m).
Qed.

(** C5. When the queue is empty, or every court from 1 to [courtCount]
    is occupied by a match being played, or no queued match can start,
    [startNextMatch] leaves the whole state as it was and reports the
    condition it met first: the empty queue, else the full courts, else
    that no match could start. *)
Theorem startNext_without_capacity st :
  matchQueue st = [] ∨ courts_full st ∨ none_startable st →
  (startNextMatch st).1 = st
  ∧ (matchQueue st = [] → (startNextMatch st).2 = Some (QueueEmpty, info))
  ∧ (matchQueue st ≠ [] → courts_full st →
     (startNextMatch st).2 = Some (CourtsFull, error))
  ∧ (matchQueue st ≠ [] → ¬ courts_full st →
     (startNextMatch st).2 = Some (CannotStart, error)).
Proof.
  intros Hcase. unfold startNextMatch.
  destruct (decide (length (matchQueue st) = 0%nat)) as [Hq|Hq].
  { apply length_zero_iff_nil in Hq. simpl. repeat split; done. }
  assert (matchQueue st ≠ []) as Hq' by (intros Heq; by rewrite Heq in Hq).
  destruct (decide (length (getAvailableCourts st) = 0%nat)) as [Ha|Ha].
  { apply length_zero_iff_nil, no_free_court in Ha. simpl. repeat split; done. }
  assert (¬ courts_full st) as Hfull.
  { intros Hfull%no_free_court. by rewrite Hfull in Ha. }
  destruct Hcase as [?|[?|Hnone]]; [done..|].
  destruct (getAvailableCourts st) as [|courtNum rest]; [done|]. simpl.
  rewrite (none_startable_findIndex st Hnone). simpl. repeat split; done.
Qed.

(** ** Roster updates *)

Lemma find_player_Some x ps p : find_player x ps = Some p → p ∈ ps ∧ p_id p = x.
Proof.
  induction ps as [|q ps IH]; simpl; [done|]. case_decide.
  - intros [= <-]. split; [apply list_elem_of_here|done].
  - intros [Hp Hid]%IH. split; [by apply list_elem_of_further|done].
Qed.

Lemma find_update_player x y f ps :
  (∀ p, p_id (f p) = p_id p) →
  find_player x (update_player y f ps)
  = if decide (y = x) then f <$> find_player x ps else find_player x ps.
Proof.
  intros Hid. induction ps as [|p ps IH]; simpl; [by case_decide|].
  destruct (decide (p_id p = y)) as [Hy|Hy]; simpl; rewrite ?Hid;
    repeat case_decide; simplify_eq/=; try done.
Qed.

Lemma find_update_players F ids ps x :
  (∀ y p, p_id (F y p) = p_id p) →
  find_player x (update_players F ids ps) = updates_of F x ids (find_player x ps).
Proof.
  intros Hid. unfold update_players, updates_of. revert ps.
  induction ids as [|y ids IH]; intros ps; simpl; [done|].
  by rewrite IH, find_update_player.
Qed.


Lemma updates_of_other F x ids o : x ∉ ids → updates_of F x ids o = o.
Proof.
  unfold updates_of. revert o. induction ids as [|y ids IH]; intros o Hx; simpl; [done|].
  apply not_elem_of_cons in Hx as [Hxy Hx]. rewrite decide_False by done. by apply IH.
Qed.

Lemma updates_of_once F x ids o :
  NoDup ids → x ∈ ids → updates_of F x ids o = F x <$> o.
Proof.
  unfold updates_of. revert o. induction ids as [|y ids IH]; intros o Hnd Hx; simpl.
  { by apply elem_of_nil in Hx. }
  apply NoDup_cons in Hnd as [Hy Hnd]. apply elem_of_cons in Hx as [->|Hx].
  - rewrite decide_True by done. by apply (updates_of_other F).
  - rewrite decide_False by (by intros ->). by apply IH.
Qed.

Lemma updates_of_keeps (Q : Player → Prop) F x ids o p' :
  (∀ y p, Q p → Q (F y p)) →
  (∀ p, o = Some p → Q p) →
  updates_of F x ids o = Some p' → Q p'.
Proof.
  intros HF. unfold updates_of. revert o.
  induction ids as [|y ids IH]; intros o Ho; simpl; [by apply Ho|].
  apply IH. case_decide; [|done].
  intros p Hp. destruct o as [q|]; simplify_eq/=. by apply HF, Ho.
Qed.

Lemma updates_of_sets (Q : Player → Prop) F x ids o p' :
  (∀ y p, Q (F y p)) →
  x ∈ ids →
  updates_of F x ids o = Some p' → Q p'.
Proof.
  intros HF. unfold updates_of. revert o.
  induction ids as [|y ids IH]; intros o Hx; simpl.
  { by apply elem_of_nil in Hx. }
  destruct (decide (y = x)) as [->|Hy].
  - apply (updates_of_keeps Q F); [by intros; apply HF|].
    intros p Hp. destruct o as [q|]; simplify_eq/=. apply HF.
  - apply IH. apply elem_of_cons in Hx as [->|Hx]; done.
Qed.

Lemma begin_player_id p : p_id (begin_player p) = p_id p.
Proof. done. Qed.

Lemma release_player_id p : p_id (release_player p) = p_id p.
Proof. done. Qed.

Lemma score_player_id m x p : p_id (score_player m x p) = p_id p.
Proof. unfold score_player. by repeat case_match. Qed.

(** ** Completing matches *)






















(** ** Recording a score *)

Lemma set_wins_counts s :
  set_wins s = (Z.of_nat (sets_won_by_team1 s), Z.of_nat (sets_won_by_team2 s)).
Proof.
  destruct s as [a1 a2 a3 b1 b2 b3].
  unfold set_wins, count_set, sets_won_by_team1, sets_won_by_team2, recorded_sets.
  simpl. rewrite !Z.gtb_ltb, !filter_cons, filter_nil. simpl.
  repeat (match goal with |- context [?x <? ?y] => destruct (Z.ltb_spec x y) end);
    repeat case_decide; simpl; try lia; f_equal; lia.
Qed.

Lemma derive_winner_spec s :
  let w := derive_winner (set_wins s) in
  (w = team1_wins ↔ (sets_won_by_team2 s < sets_won_by_team1 s)%nat)
  ∧ (w = team2_wins ↔ (sets_won_by_team1 s < sets_won_by_team2 s)%nat)
  ∧ (w = draw ↔ sets_won_by_team1 s = sets_won_by_team2 s).
Proof.
  rewrite set_wins_counts. unfold derive_winner. simpl. rewrite !Z.gtb_ltb.
  repeat (match goal with |- context [?x <? ?y] => destruct (Z.ltb_spec x y) end);
    (split; [|split]); split; try done; lia.
Qed.

Lemma score_player_stats m w x p :
  winner m = Some w → NoDup (members m) →
  let p' := score_player m x p in
  isPlaying p' = false
  ∧ (x ∈ winning_team w m → wins_of p' = wins_of p + 1 ∧ losses_of p' = losses_of p)
  ∧ (x ∈ losing_team w m → wins_of p' = wins_of p ∧ losses_of p' = losses_of p + 1)
  ∧ (w = draw → wins_of p' = wins_of p ∧ losses_of p' = losses_of p).
Proof.
  intros Hw Hnd. apply NoDup_app in Hnd as (_ & Hdisj & _).
  unfold score_player, wins_of, losses_of. rewrite Hw.
  destruct w; simpl;
    repeat (case_bool_decide; simpl); simplify_eq; simpl;
    (split; [done|]); (split; [|split]); try done; intros Hx; try done;
    try (by apply elem_of_nil in Hx); exfalso; naive_solver.
Qed.

(** C8. Recording the three set scores of a match being played whose
    teams hold pairwise distinct ids: the winner is team 1 exactly when
    team 1 has won more sets than team 2, team 2 exactly when fewer, a
    draw exactly when as many, a set being won by the team with the
    strictly greater score; every member found in the roster is no
    longer busy, has one more win if on the winning team and one more
    loss if on the losing team, and on a draw keeps both counters. *)
Theorem score_decides_winner st matchId s i l m :
  findIndex (on_obj (objs st) (has_id matchId)) (currentMatches st) = Some i →
  currentMatches st !! i = Some l →
  objs st !! l = Some m →
  NoDup (members m) →
  let st' := (saveScore matchId s st).1 in
  ∃ m' w,
    objs st' !! l = Some m' ∧ status m' = completed
    ∧ scores m' = Some s ∧ winner m' = Some w
    ∧ (w = team1_wins ↔ (sets_won_by_team2 s < sets_won_by_team1 s)%nat)
    ∧ (w = team2_wins ↔ (sets_won_by_team1 s < sets_won_by_team2 s)%nat)
    ∧ (w = draw ↔ sets_won_by_team1 s = sets_won_by_team2 s)
    ∧ ∀ x p, x ∈ members m → find_player x (players st) = Some p →
        ∃ p', find_player x (players st') = Some p'
          ∧ isPlaying p' = false
          ∧ (x ∈ winning_team w m →
             wins_of p' = wins_of p + 1 ∧ losses_of p' = losses_of p)
          ∧ (x ∈ losing_team w m →
             wins_of p' = wins_of p ∧ losses_of p' = losses_of p + 1)
          ∧ (w = draw → wins_of p' = wins_of p ∧ losses_of p' = losses_of p).
Proof.
  intros Hi Hil Hm Hnd st'. subst st'. unfold saveScore.
  rewrite Hi. cbv beta iota. rewrite Hil, Hm. cbv beta iota zeta.
  set (m' := score_match (Date_now 0) s m).
  exists m', (derive_winner (set_wins s)). simpl.
  split; [apply list_lookup_insert_eq; by eapply lookup_lt_Some|].
  do 3 (split; [done|]).
  destruct (derive_winner_spec s) as (H1 & H2 & H3).
  do 3 (split; [done|]).
  intros x p Hx Hp.
  exists (score_player m' x p). split.
  - rewrite find_update_players by apply score_player_id.
    change (members m') with (members m). rewrite updates_of_once by done.
    by rewrite Hp.
  - by apply (score_player_stats m' (derive_winner (set_wins s)) x p).
Qed.

(** ** Dispatch keeps players on one court *)

Lemma pairwise_disjoint_snoc ls x :
  pairwise_disjoint (ls ++ [x])
  = pairwise_disjoint ls
    && forallb (λ y, forallb (λ a, negb (bool_decide (a ∈ x))) y) ls.
Proof.
  induction ls as [|y ls IH]; simpl; [done|].
  rewrite forallb_app, IH. simpl. rewrite andb_true_r.
  repeat match goal with |- context [forallb ?f ?l] => generalize (forallb f l) end.
  generalize (pairwise_disjoint ls). by intros [] [] [] [].
Qed.

Lemma busy_recorded_spec st :
  busy_recorded st = true ↔
  ∀ y a p, y ∈ playing_members st → a ∈ y →
    find_player a (players st) = Some p → isPlaying p = true.
Proof.
  unfold busy_recorded. rewrite forallb_forall. split.
  - intros Hall y a p Hy Ha Hp. apply list_elem_of_In, Hall in Hy.
    rewrite forallb_forall in Hy. apply list_elem_of_In, Hy in Ha. by rewrite Hp in Ha.
  - intros Hall y Hy. apply forallb_forall. intros a Ha.
    destruct (find_player a (players st)) as [p|] eqn:Hp; [|done].
    apply (Hall y a p); by try apply list_elem_of_In.
Qed.

Lemma members_after_insert (heap : list Match) l m m' (a : list ref) :
  heap !! l = Some m → members m' = members m →
  members <$> omap (λ l0, <[l := m']> heap !! l0) a
  = members <$> omap (λ l0, heap !! l0) a.
Proof.
  intros Hl Hm. induction a as [|l0 a IH]; simpl; [done|].
  destruct (decide (l0 = l)) as [->|Hne].
  - rewrite list_lookup_insert_eq by (by eapply lookup_lt_Some).
    rewrite Hl. simpl. f_equal; [done|apply IH].
  - rewrite list_lookup_insert_ne by done.
    destruct (heap !! l0); simpl; [f_equal|]; apply IH.
Qed.

Lemma start_match_effect courtNum t i st l m :
  matchQueue st !! i = Some l → objs st !! l = Some m →
  let st' := start_match courtNum t i st in
  playing_members st' = playing_members st ++ [members m]
  ∧ players st' = update_players (λ _, begin_player) (members m) (players st)
  ∧ settings st' = settings st.
Proof.
  intros Hi Hl. unfold start_match. rewrite Hi, Hl. simpl.
  split; [|done]. unfold playing_members, playing_matches. simpl.
  rewrite omap_app, fmap_app.
  rewrite (members_after_insert _ l m) by done. f_equal. simpl.
  rewrite list_lookup_insert_eq by (by eapply lookup_lt_Some). done.
Qed.

Lemma start_match_keeps_apart courtNum t i st l m :
  multiCourt (settings st) = false →
  no_double_booking st = true → busy_recorded st = true →
  matchQueue st !! i = Some l → objs st !! l = Some m → can_start st m = true →
  let st' := start_match courtNum t i st in
  no_double_booking st' = true ∧ busy_recorded st' = true.
Proof.
  intros Hmc Hndb Hbusy Hi Hl Hstart st'.
  destruct (start_match_effect courtNum t i st l m Hi Hl) as (Hpm & Hps & Hset).
  fold st' in Hpm, Hps, Hset.
  apply can_start_startable in Hstart.
  pose proof (proj1 (busy_recorded_spec st) Hbusy) as Hb.
  split.
  - unfold no_double_booking. rewrite Hpm, pairwise_disjoint_snoc.
    apply andb_true_iff. split; [done|].
    apply forallb_forall. intros y Hy. apply forallb_forall. intros a Ha.
    apply negb_true_iff, bool_decide_eq_false. intros Hin.
    destruct (Hstart a Hin) as (p & Hp & [Hfree|Hmulti]); [|congruence].
    apply list_elem_of_In in Hy, Ha. rewrite (Hb y a p Hy Ha Hp) in Hfree.
    discriminate.
  - apply busy_recorded_spec. intros y a p. rewrite Hpm, Hps.
    rewrite find_update_players by done.
    intros [Hy|Hy%list_elem_of_singleton]%elem_of_app Ha Hp.
    + apply (updates_of_keeps (λ p, isPlaying p = true) (λ _, begin_player) a
               (members m) (find_player a (players st)) p); [done| |exact Hp].
      intros q Hq. by apply (Hb y a q).
    + subst y.
      by apply (updates_of_sets (λ p, isPlaying p = true) (λ _, begin_player) a
                  (members m) (find_player a (players st)) p).
Qed.

Lemma start_loop_keeps_apart courts n st :
  multiCourt (settings st) = false →
  no_double_booking st = true → busy_recorded st = true →
  no_double_booking (start_loop courts n st).1 = true
  ∧ busy_recorded (start_loop courts n st).1 = true.
Proof.
  revert n st. induction courts as [|courtNum rest IH]; intros n st Hmc Hndb Hbusy;
    simpl; [done|].
  destruct (findIndex _ _) as [i|] eqn:Hfind; [|done].
  apply findIndex_Some in Hfind as (l & Hi & (m & Hl & Hstart)%on_obj_true).
  destruct (start_match_keeps_apart courtNum (Date_now n) i st l m) as [H1 H2]; try done.
  destruct (start_match_effect courtNum (Date_now n) i st l m Hi Hl) as (_ & _ & Hset).
  apply IH; [by rewrite Hset|done..].
Qed.

(** The eligibility test of [startNextMatch] reads the busy flags: where
    they are right (every roster player who is in a match being played
    is marked busy) and multi-court mode is off, dispatch puts no player
    into two matches being played and leaves the flags right. *)
Lemma startNext_keeps_players_apart st :
  multiCourt (settings st) = false →
  no_double_booking st = true →
  busy_recorded st = true →
  no_double_booking (startNextMatch st).1 = true
  ∧ busy_recorded (startNextMatch st).1 = true.
Proof.
  intros Hmc Hndb Hbusy. unfold startNextMatch.
  repeat case_decide; try done.
  pose proof (start_loop_keeps_apart (getAvailableCourts st) 0 st Hmc Hndb Hbusy) as Hloop.
  destruct (start_loop (getAvailableCourts st) 0 st) as [st' n]. by case_decide.
Qed.

(** ** Editing a player *)

Lemma find_player_is_Some x ps p :
  p ∈ ps → p_id p = x → ∃ q, find_player x ps = Some q.
Proof.
  intros Hp Hid. induction ps as [|q ps IH]; simpl; [by apply elem_of_nil in Hp|].
  case_decide; [by eexists|]. apply elem_of_cons in Hp as [->|Hp]; [done|by apply IH].
Qed.

Lemma update_player_elem x f ps q :
  find_player x ps = Some q → f q ∈ update_player x f ps.
Proof.
  induction ps as [|p ps IH]; simpl; [done|]. case_decide.
  - intros [= <-]. apply list_elem_of_here.
  - intros Hq. by apply list_elem_of_further, IH.
Qed.

Lemma update_player_other x f ps p :
  p ∈ ps → p_id p ≠ x → p ∈ update_player x f ps.
Proof.
  intros Hp Hid. induction ps as [|q ps IH]; simpl; [done|].
  apply elem_of_cons in Hp as [->|Hp].
  - rewrite decide_False by done. apply list_elem_of_here.
  - case_decide; apply list_elem_of_further; [done|by apply IH].
Qed.

Lemma name_taken_elem name ps p :
  p ∈ ps → toLowerCase (p_name p) = toLowerCase name → name_taken name ps = true.
Proof.
  intros Hp Hname. unfold name_taken. apply existsb_exists. exists p.
  split; [by apply list_elem_of_In|]. by apply bool_decide_eq_true.
Qed.

(** C10. Editing enforces no uniqueness of names: for two players of
    the roster with different ids, an edit of the first whose input
    trims to the (non-empty) name of the second succeeds, and the
    roster then holds two players with different ids and the same name,
    equal also after lower-casing; the same input is refused as a
    duplicate by [addPlayer] and skipped by [addBulkPlayers]. *)
Theorem edit_allows_duplicate_name st A B input newLevel :
  A ∈ players st → B ∈ players st → p_id A ≠ p_id B →
  trim input = p_name B → p_name B ≠ "" →
  let st' := (saveEditPlayer (p_id A) input newLevel st).1 in
  (saveEditPlayer (p_id A) input newLevel st).2 = Some (PlayerEdited, success)
  ∧ (∃ A', A' ∈ players st' ∧ B ∈ players st' ∧ p_id A' = p_id A
       ∧ p_name A' = p_name B
       ∧ toLowerCase (p_name A') = toLowerCase (p_name B))
  ∧ addPlayer input newLevel st = (st, Some (DuplicateName, error))
  ∧ addBulkPlayers [input] newLevel st = (st, Some (BulkAllDuplicates, error)).
Proof.
  intros HA HB Hid Hin Hname st'. subst st'.
  destruct (find_player_is_Some (p_id A) (players st) A HA eq_refl) as [A0 HA0].
  pose proof (name_taken_elem (p_name B) (players st) B HB eq_refl) as Htaken.
  unfold saveEditPlayer, addPlayer, addBulkPlayers. rewrite Hin.
  rewrite !decide_False by done. rewrite HA0, Htaken. simpl.
  split; [done|]. split.
  - exists (rename_player (p_name B) newLevel A0). split; [by apply update_player_elem|].
    split; [by apply update_player_other|].
    apply find_player_Some in HA0 as [_ HA0]. done.
  - split; [done|]. rewrite Hin, filter_cons_True, filter_nil by done. simpl.
    rewrite Htaken. simpl. by destruct st.
Qed.

(** ** Balanced doubles on a group of four *)

(** Four non-resting players of levels pro, advanced, intermediate and
    beginner with equal match counts, one court: whatever their ids, the
    match emitted teams the first with the third and the second with
    the fourth. *)
Lemma balanced_group_of_four calls multi (P A I B : Player) c :
  p_level P = pro → p_level A = advanced →
  p_level I = intermediate → p_level B = beginner →
  matchCount P = c → matchCount A = c → matchCount I = c → matchCount B = c →
  isResting P = false → isResting A = false →
  isResting I = false → isResting B = false →
  (λ m, (team1 m, team2 m))
    <$> generateMatches calls (mkSettings doubles balanced 1 multi) [P; A; I; B]
  = [([p_id P; p_id I], [p_id A; p_id B])].
Proof.
  intros HP HA HI HB HcP HcA HcI HcB HrP HrA HrI HrB.
  unfold generateMatches. rewrite !filter_cons_True, filter_nil by done.
  unfold originalGenerateMatches, balancePlayers, Array_sort. simpl.
  repeat (first [rewrite HP|rewrite HA|rewrite HI|rewrite HB]; simpl).
  repeat (first [rewrite HcP|rewrite HcA|rewrite HcI|rewrite HcB|rewrite Z.sub_diag];
          simpl).
  change (filter (λ p, p_id p ∉ ∅) [P; I; A; B]) with (unused ∅ [P; I; A; B]).
  rewrite unused_empty. simpl. done.
Qed.

(** ** What a round adds *)

(** A round that passes the guard puts the matches of the pairing
    engine, tagged with the round and with their teams as emitted, at
    the end of the store and of the queue. *)
Lemma generateRound_adds st :
  let availablePlayers := filter (λ p, isPlaying p = false) (players st) in
  let emitted := generateMatches 1 (settings st) availablePlayers in
  let ms := tag_round (generateId 0) (currentRound st + 1) <$> emitted in
  ¬ Z.of_nat (length availablePlayers)
    < (if decide (matchType (settings st) = doubles) then 4 else 2) →
  objs (generateRound st).1 = objs st ++ ms
  ∧ matchQueue (generateRound st).1
    = matchQueue st ++ seq (length (objs st)) (length ms)
  ∧ currentRound (generateRound st).1 = currentRound st + 1
  ∧ Forall2 (λ m m', team1 m = team1 m' ∧ team2 m = team2 m') ms emitted.
Proof.
  intros availablePlayers emitted ms Hguard. unfold generateRound.
  rewrite decide_False by done. simpl. do 3 (split; [done|]).
  subst ms. induction emitted as [|m emitted IH]; simpl; by constructor.
Qed.

End Properties.

(** ** Bulk import *)

Section ImportProperties.
Import JsonImport.

Lemma assign_prop_union (target : gmap string json) kv :
  assign_prop target kv = assign_prop ∅ kv ∪ target.
Proof.
  unfold assign_prop. case_decide.
  - by rewrite (left_id_L ∅ (∪)).
  - by rewrite insert_union_singleton_l, insert_empty.
Qed.

(** [Object.assign] overwrites the fields the source has and keeps the
    others. *)
Lemma Object_assign_union (target : gmap string json) source :
  Object_assign target source = Object_assign ∅ source ∪ target.
Proof.
  unfold Object_assign. revert target.
  induction source as [|kv source IH]; intros target; simpl.
  - by rewrite (left_id_L ∅ (∪)).
  - rewrite (IH (assign_prop target kv)), (IH (assign_prop ∅ kv)).
    by rewrite (assign_prop_union target), (assoc_L (∪)).
Qed.








(** X26. Importing the same text a second time leaves the state of the
    first import, whatever the redrawing did either time; the toast is
    the same too when the redrawing of that state ends the same way. *)
Theorem import_twice_is_import_once redraws redraws' data (state : gmap string json) :
  (doImport redraws' data (doImport redraws data state).1).1
  = (doImport redraws data state).1
  ∧ (redraws' (doImport redraws data state).1 = redraws (doImport redraws data state).1 →
     doImport redraws' data (doImport redraws data state).1
     = doImport redraws data state).
Proof.
  assert (∀ props, Object_assign (Object_assign state props) props
                   = Object_assign state props) as Hidem.
  { intros props. rewrite (Object_assign_union (Object_assign state props)).
    rewrite (Object_assign_union state).
    by rewrite (assoc_L (∪)), (idemp_L (∪)). }
  destruct data as [| |parsed]; try done.
  destruct parsed as [| | | | |props]; try done; simpl;
    try (by destruct (_ || _)).
  destruct (_ || _); [done|]. simpl. rewrite Hidem. split; [done|].
  by intros ->.
Qed.

End ImportProperties.

(** * Further properties *)

Section MoreProperties.
Context `{!Host}.

(** ** Orderings of the pool *)

Lemma shuffle_is_rearrangement_aux {A} k (array : list A) :
  shuffleArray k array ≡ₚ array ∧ length (shuffleArray k array) = length array.
Proof.
  assert (shuffleArray k array ≡ₚ array) as Hperm by apply shuffle_loop_perm.
  split; [done|]. by rewrite Hperm.
Qed.

(** X1. The Fisher-Yates loop of [shuffleArray] returns a rearrangement of
    its argument, whatever [Math.random()] draws. *)
Theorem shuffle_is_rearrangement {A} k (array : list A) :
  shuffleArray k array ≡ₚ array ∧ length (shuffleArray k array) = length array.
Proof. apply shuffle_is_rearrangement_aux. Qed.

Lemma sort_insert_sorted {A} (key : A → Z) (cmp : A → A → Z) x l :
  (∀ a b, cmp a b ≤ 0 ↔ key a ≤ key b) →
  StronglySorted (λ a b, key a ≤ key b) l →
  StronglySorted (λ a b, key a ≤ key b) (sort_insert cmp x l).
Proof.
  intros Hcmp Hs. induction Hs as [|y l Hs IH Hy]; simpl.
  { repeat constructor. }
  destruct (Z.leb_spec (cmp x y) 0) as [Hle|Hgt].
  - apply Hcmp in Hle. constructor; [by constructor|].
    constructor; [done|]. eapply Forall_impl; [exact Hy|]. simpl. lia.
  - constructor; [done|]. rewrite sort_insert_perm. constructor; [|done].
    assert (¬ key x ≤ key y) by (rewrite <-Hcmp; lia). lia.
Qed.

Lemma Array_sort_sorted {A} (key : A → Z) (cmp : A → A → Z) l :
  (∀ a b, cmp a b ≤ 0 ↔ key a ≤ key b) →
  StronglySorted (λ a b, key a ≤ key b) (Array_sort cmp l).
Proof.
  intros Hcmp. induction l as [|x l IH]; simpl; [constructor|].
  by apply sort_insert_sorted.
Qed.

(** X2. [balancePlayers] keeps every player exactly once, in both match
    types; for singles the result is in ascending order of level
    weight. *)
Theorem balancePlayers_keeps_everyone mt (ps : list Player) :
  balancePlayers mt ps ≡ₚ ps
  ∧ StronglySorted (λ a b, LEVEL_WEIGHTS (p_level a) ≤ LEVEL_WEIGHTS (p_level b))
      (balancePlayers singles ps).
Proof.
  split.
  - destruct mt; simpl; [apply Array_sort_perm|].
    rewrite balance_loop_perm. simpl. apply Array_sort_perm.
  - simpl. apply (Array_sort_sorted (λ p, LEVEL_WEIGHTS (p_level p))). intros a b. lia.
Qed.

Lemma group_level l ps : Forall (λ p, p_level p = l) (group l ps).
Proof.
  apply Forall_forall. intros p Hp. unfold group in Hp.
  by apply list_elem_of_filter in Hp as [? _].
Qed.

Lemma shuffled_group_level k l ps :
  Forall (λ p, p_level p = l) (shuffleArray k (group l ps)).
Proof.
  assert (shuffleArray k (group l ps) ≡ₚ group l ps) as -> by apply shuffle_loop_perm.
  apply group_level.
Qed.

Lemma same_level_sorted l (g : list Player) :
  Forall (λ p, p_level p = l) g →
  StronglySorted (λ a b, LEVEL_WEIGHTS (p_level b) ≤ LEVEL_WEIGHTS (p_level a)) g.
Proof.
  induction 1 as [|p g Hp Hg IH]; constructor; [done|].
  eapply Forall_impl; [exact Hg|]. simpl. intros q Hq. rewrite Hp, Hq. lia.
Qed.

(** X3. [separateByLevel] keeps every player exactly once and returns them
    level by level, from pro down to beginner: no player stands before a
    player of a higher level. *)
Theorem separateByLevel_groups_levels k (ps : list Player) :
  separateByLevel k ps ≡ₚ ps
  ∧ StronglySorted (λ a b, LEVEL_WEIGHTS (p_level b) ≤ LEVEL_WEIGHTS (p_level a))
      (separateByLevel k ps).
Proof.
  split.
  { unfold separateByLevel.
    rewrite !(λ j g, proj1 (shuffle_is_rearrangement_aux j g)). apply group_perm. }
  unfold separateByLevel.
  set (g1 := shuffleArray _ (group pro ps)).
  set (g2 := shuffleArray _ (group advanced ps)).
  set (g3 := shuffleArray _ (group intermediate ps)).
  set (g4 := shuffleArray _ (group beginner ps)).
  assert (Forall (λ p, p_level p = pro) g1) as H1 by apply shuffled_group_level.
  assert (Forall (λ p, p_level p = advanced) g2) as H2 by apply shuffled_group_level.
  assert (Forall (λ p, p_level p = intermediate) g3) as H3 by apply shuffled_group_level.
  assert (Forall (λ p, p_level p = beginner) g4) as H4 by apply shuffled_group_level.
  rewrite Forall_forall in H1, H2, H3, H4.
  repeat (apply StronglySorted_app_2; [| |]);
    try (eapply same_level_sorted; by apply Forall_forall);
    intros x1 x2 Hx1 Hx2; rewrite ?elem_of_app in Hx2;
    first [rewrite (H1 x1 Hx1)|rewrite (H2 x1 Hx1)|rewrite (H3 x1 Hx1)];
    destruct_or?;
    first [rewrite (H2 x2) by done|rewrite (H3 x2) by done|rewrite (H4 x2) by done];
    simpl; lia.
Qed.

(** ** Who gets to play *)

Lemma filter_sorted {A} (R : relation A) (P : A → Prop) `{!∀ x, Decision (P x)} l :
  StronglySorted R l → StronglySorted R (filter P l).
Proof.
  induction 1 as [|x l Hs IH Hx]; [constructor|].
  rewrite filter_cons. case_decide; [|done].
  constructor; [done|]. apply Forall_forall. intros y [_ Hy]%list_elem_of_filter.
  rewrite Forall_forall in Hx. by apply Hx.
Qed.

Lemma match_loop_used calls mt todo k shuffled used m :
  m ∈ match_loop calls mt todo k shuffled used →
  ∃ used', chunk mt shuffled used' m
    ∧ ∀ x, x ∈ used' →
        x ∈ used ∨ x ∈ concat (members <$> match_loop calls mt todo k shuffled used).
Proof.
  revert k used. induction todo as [|todo IH]; intros k used; simpl.
  { by intros ?%elem_of_nil. }
  case_decide as Hlen; [by intros ?%elem_of_nil|].
  set (sel := take (playersPerMatch mt) (filter (λ p, p_id p ∉ used) shuffled)).
  intros [->|Hm]%elem_of_cons.
  - exists used. split; [|by left].
    unfold chunk, unused. simpl. repeat split; try done. lia.
  - destruct (IH _ _ Hm) as (used' & Hc & Hused). exists used'. split; [done|].
    intros x Hx. destruct (Hused x Hx) as [[Hu|Hs]%elem_of_union|Hlater].
    + by left.
    + right. apply elem_of_app. left. unfold members. simpl.
      rewrite <-fmap_app, take_drop. by apply elem_of_list_to_set in Hs.
    + right. apply elem_of_app. by right.
Qed.

Lemma NoDup_ids_inj (ps : list Player) p q :
  NoDup (p_id <$> ps) → p ∈ ps → q ∈ ps → p_id p = p_id q → p = q.
Proof.
  intros Hnd Hp Hq Hid.
  apply list_elem_of_lookup in Hp as [i Hi]. apply list_elem_of_lookup in Hq as [j Hj].
  assert (i = j) as ->; [|congruence].
  eapply NoDup_lookup; [exact Hnd| |]; rewrite list_lookup_fmap.
  - by rewrite Hi.
  - rewrite Hj. simpl. by rewrite Hid.
Qed.

(** X4. The fairness pass: in a pool with pairwise distinct ids, a player
    who is paired in the round never has more matches behind them than
    an eligible (non-resting) player of the pool who is left out of the
    round. *)
Theorem fewest_matches_play_first calls s (pool : list Player) m chosen spare :
  NoDup (p_id <$> pool) →
  m ∈ generateMatches calls s pool →
  chosen ∈ pool → p_id chosen ∈ members m →
  spare ∈ pool → isResting spare = false →
  p_id spare ∉ concat (members <$> generateMatches calls s pool) →
  matchCount chosen ≤ matchCount spare.
Proof.
  intros Hnd Hm Hchosen Hin Hspare Hrest Hout. unfold generateMatches in *.
  set (eligible := filter (λ p, isResting p = false) pool) in *.
  unfold originalGenerateMatches in *.
  pose proof (ordering_perm s eligible) as Hperm.
  pose proof (Array_sort_sorted matchCount (λ a b, matchCount a - matchCount b)
    (match pairingMode s with
     | random => shuffleArray 0 eligible
     | balanced => balancePlayers (matchType s) eligible
     | separate => separateByLevel 0 eligible
     end)) as Hsorted.
  set (sh := Array_sort _ _) in *.
  specialize (Hsorted ltac:(intros; lia)).
  assert (NoDup (p_id <$> sh)) as Hsh.
  { rewrite Hperm. by apply ids_NoDup_filter. }
  destruct (match_loop_used _ _ _ _ _ _ _ Hm) as (used & Hc & Hused).
  pose proof (chunk_members _ _ _ _ Hc) as Hmem.
  set (av := unused used sh) in *.
  assert (StronglySorted (λ a b, matchCount a ≤ matchCount b) av) as Hav
    by by apply filter_sorted.
  rewrite <-(take_drop (playersPerMatch (matchType s)) av) in Hav.
  rewrite Hmem in Hin. apply list_elem_of_fmap in Hin as (c & Hid & Hc').
  assert (spare ∈ av) as Hsp.
  { apply list_elem_of_filter. split.
    - intros Hu. destruct (Hused _ Hu) as [?%elem_of_empty|?]; done.
    - rewrite Hperm. apply list_elem_of_filter. by split. }
  rewrite <-(take_drop (playersPerMatch (matchType s)) av) in Hsp.
  apply elem_of_app in Hsp as [Hsp|Hsp].
  { destruct Hout. apply elem_of_concat. exists (members m).
    split; [by apply list_elem_of_fmap_2|]. rewrite Hmem. by apply list_elem_of_fmap_2. }
  assert (c = chosen) as ->.
  { apply (NoDup_ids_inj pool); try done.
    apply subseteq_take, list_elem_of_filter in Hc' as [_ Hc'].
    rewrite Hperm in Hc'. by apply list_elem_of_filter in Hc' as [_ ?]. }
  exact (StronglySorted_app_1_elem_of (λ a b, matchCount a ≤ matchCount b) _ _
           chosen spare Hav Hc' Hsp).
Qed.

Lemma match_loop_from_pool calls mt todo k shuffled used m x :
  m ∈ match_loop calls mt todo k shuffled used → x ∈ members m →
  ∃ p, p ∈ shuffled ∧ p_id p = x.
Proof.
  intros Hm Hx. pose proof (match_loop_chunks calls mt todo k shuffled used) as Hch.
  rewrite Forall_forall in Hch. destruct (Hch m Hm) as [used' Hc].
  rewrite (chunk_members _ _ _ _ Hc) in Hx.
  apply list_elem_of_fmap in Hx as (p & -> & Hp).
  apply subseteq_take, list_elem_of_filter in Hp as [_ Hp]. by exists p.
Qed.

(** X5. Every player of every match that [generateRound] adds to the store
    is a player of the roster who is neither playing nor resting. *)
Theorem round_pairs_only_idle_players st m x :
  m ∈ drop (length (objs st)) (objs (generateRound st).1) →
  x ∈ members m →
  ∃ p, p ∈ players st ∧ p_id p = x ∧ isPlaying p = false ∧ isResting p = false.
Proof.
  unfold generateRound. case_decide as Hguard; simpl.
  { rewrite drop_all. by intros ?%elem_of_nil. }
  rewrite drop_app_length.
  intros (m0 & -> & Hm0)%list_elem_of_fmap Hx.
  change (members (tag_round _ _ m0)) with (members m0) in Hx.
  unfold generateMatches, originalGenerateMatches in Hm0.
  destruct (match_loop_from_pool _ _ _ _ _ _ _ _ Hm0 Hx) as (p & Hp & Hid).
  rewrite ordering_perm in Hp.
  apply list_elem_of_filter in Hp as [Hrest Hp].
  apply list_elem_of_filter in Hp as [Hplay Hp]. by exists p.
Qed.

(** ** Free courts, in order *)

Lemma seqZ_sorted m n : StronglySorted Z.lt (seqZ m n).
Proof.
  remember (Z.to_nat n) as k eqn:Hk. revert m n Hk.
  induction k as [|k IH]; intros m n Hk.
  - rewrite seqZ_nil by lia. constructor.
  - rewrite seqZ_cons by lia. constructor; [apply IH; lia|].
    apply Forall_forall. intros i Hi%elem_of_seqZ. lia.
Qed.

(** X6. [getAvailableCourts] lists, in increasing order and without
    repetition, exactly the court numbers from 1 to [courtCount] that no
    match being played has. *)
Theorem available_courts_are_the_free_ones st :
  (∀ i, i ∈ getAvailableCourts st
        ↔ 1 ≤ i ≤ courtCount (settings st) ∧ ¬ occupied st i)
  ∧ StronglySorted Z.lt (getAvailableCourts st)
  ∧ NoDup (getAvailableCourts st).
Proof.
  split; [apply free_court|]. unfold getAvailableCourts. split.
  - apply filter_sorted, seqZ_sorted.
  - apply NoDup_filter, NoDup_seqZ.
Qed.

(** ** What dispatch moves *)

Lemma start_match_fields courtNum t i st l m :
  matchQueue st !! i = Some l → objs st !! l = Some m →
  start_match courtNum t i st
  = mkState (update_players (λ _, begin_player) (members m) (players st))
      (<[l := begin_match courtNum t m]> (objs st)) (matches st)
      (currentMatches st ++ [l]) (delete i (matchQueue st)) (rounds st)
      (settings st) (currentRound st) (rentalTimer st).
Proof. intros Hi Hl. unfold start_match. by rewrite Hi, Hl. Qed.

Lemma start_loop_moves courts n st :
  ∃ started,
    currentMatches (start_loop courts n st).1 = currentMatches st ++ started
    ∧ (start_loop courts n st).2 = (n + length started)%nat
    ∧ (length started ≤ length courts)%nat
    ∧ matchQueue (start_loop courts n st).1 `sublist_of` matchQueue st
    ∧ matchQueue st ≡ₚ started ++ matchQueue (start_loop courts n st).1
    ∧ matches (start_loop courts n st).1 = matches st
    ∧ rounds (start_loop courts n st).1 = rounds st
    ∧ settings (start_loop courts n st).1 = settings st
    ∧ currentRound (start_loop courts n st).1 = currentRound st
    ∧ rentalTimer (start_loop courts n st).1 = rentalTimer st
    ∧ length (objs (start_loop courts n st).1) = length (objs st).
Proof.
  revert n st. induction courts as [|courtNum rest IH]; intros n st; simpl.
  { exists []. rewrite app_nil_r, Nat.add_0_r. repeat split; done. }
  destruct (findIndex _ _) as [i|] eqn:Hfind; simpl.
  2:{ exists []. rewrite app_nil_r, Nat.add_0_r.
      repeat split; simpl; try reflexivity; lia. }
  apply findIndex_Some in Hfind as (l & Hi & (m & Hl & _)%on_obj_true).
  rewrite (start_match_fields courtNum (Date_now n) i st l m Hi Hl).
  set (st1 := mkState _ _ _ _ _ _ _ _ _).
  destruct (IH (S n) st1) as (started & Hcur & Hn & Hlen & Hsub & Hperm & Hrest).
  exists (l :: started). rewrite Hcur, Hn. simpl. rewrite <-app_assoc. simpl.
  split; [done|]. split; [lia|]. split; [lia|]. split.
  { etrans; [exact Hsub|]. apply sublist_delete. }
  split.
  { rewrite (delete_Permutation _ _ _ Hi). by f_equiv. }
  destruct Hrest as (? & ? & ? & ? & ? & Hobjs). repeat split; try done.
  rewrite Hobjs. simpl. apply length_insert.
Qed.


(** X8. When some queued match can start and a court is free,
    [startNextMatch] starts at least one match, at most one per free
    court, and reports how many with the success toast. *)
Theorem startNext_uses_a_free_court st l m :
  l ∈ matchQueue st → objs st !! l = Some m → startable st m →
  ¬ courts_full st →
  ∃ n, (startNextMatch st).2 = Some (MatchesStarted n, success)
    ∧ (1 ≤ n ≤ length (getAvailableCourts st))%nat
    ∧ length (currentMatches (startNextMatch st).1) = (length (currentMatches st) + n)%nat
    ∧ (length (matchQueue (startNextMatch st).1) + n)%nat = length (matchQueue st).
Proof.
  intros Hl Hm Hstart Hfree. unfold startNextMatch.
  rewrite decide_False by (intros Hnil%length_zero_iff_nil; rewrite Hnil in Hl;
                           by apply elem_of_nil in Hl).
  rewrite decide_False by (intros Hnil%length_zero_iff_nil; by apply Hfree, no_free_court).
  destruct (start_loop_moves (getAvailableCourts st) 0 st)
    as (started & Hcur & Hn & Hlen & _ & Hperm & _).
  assert (1 ≤ length started)%nat as Hone.
  { destruct (getAvailableCourts st) as [|courtNum rest] eqn:Hcourts.
    { destruct Hfree. by apply no_free_court. }
    simpl in Hcur. destruct (findIndex _ _) as [i|] eqn:Hfind.
    - apply findIndex_Some in Hfind as (l' & Hi & (m' & Hl' & _)%on_obj_true).
      rewrite (start_match_fields _ _ _ _ _ _ Hi Hl') in Hcur.
      destruct (start_loop_moves rest 1 (mkState
        (update_players (λ _, begin_player) (members m') (players st))
        (<[l' := begin_match courtNum (Date_now 0) m']> (objs st)) (matches st)
        (currentMatches st ++ [l']) (delete i (matchQueue st)) (rounds st)
        (settings st) (currentRound st) (rentalTimer st)))
        as (more & Hmore & _).
      rewrite Hmore in Hcur. simpl in Hcur. rewrite <-app_assoc in Hcur.
      apply app_inv_head in Hcur. rewrite <-Hcur. simpl. lia.
    - exfalso. rewrite findIndex_None in Hfind. specialize (Hfind l Hl).
      unfold on_obj in Hfind. rewrite Hm in Hfind. simpl in Hfind.
      apply can_start_startable in Hstart. congruence. }
  destruct (start_loop (getAvailableCourts st) 0 st) as [st' n] eqn:Hloop.
  simpl in *. subst n. exists (length started).
  rewrite decide_False by lia. simpl.
  split; [done|]. split; [lia|]. split; [by rewrite Hcur, length_app|].
  by rewrite Hperm, length_app, Nat.add_comm.
Qed.

(** ** Tools for the session invariants *)

Lemma omap_lookup_app (h h' : list Match) (a : list ref) :
  Forall (λ l, l < length h)%nat a →
  omap (λ l, (h ++ h') !! l) a = omap (λ l, h !! l) a.
Proof.
  induction 1 as [|l a Hl Ha IH]; simpl; [done|].
  rewrite lookup_app_l by done. destruct (h !! l); [f_equal|]; apply IH.
Qed.

Lemma omap_lookup_insert_ne (h : list Match) l m' (a : list ref) :
  l ∉ a → omap (λ l0, <[l := m']> h !! l0) a = omap (λ l0, h !! l0) a.
Proof.
  induction a as [|l0 a IH]; intros Hl; simpl; [done|].
  apply not_elem_of_cons in Hl as [Hne Hl].
  rewrite list_lookup_insert_ne by done.
  destruct (h !! l0); [f_equal|]; by apply IH.
Qed.

Lemma omap_sublist {A B} (f : A → option B) l1 l2 :
  l1 `sublist_of` l2 → omap f l1 `sublist_of` omap f l2.
Proof.
  induction 1 as [|x l1 l2 Hs IH|x l1 l2 Hs IH]; simpl; [done|..];
    destruct (f x); by try constructor.
Qed.

Lemma pairwise_disjoint_sublist l1 l2 :
  l1 `sublist_of` l2 → pairwise_disjoint l2 = true → pairwise_disjoint l1 = true.
Proof.
  induction 1 as [|x l1 l2 Hs IH|x l1 l2 Hs IH]; simpl; [done|..];
    intros [Hx Hrest]%andb_true_iff; [|by apply IH].
  apply andb_true_iff. split; [|by apply IH].
  rewrite forallb_forall in Hx. apply forallb_forall. intros y Hy. apply Hx.
  apply list_elem_of_In. eapply elem_of_sublist; [by apply list_elem_of_In|done].
Qed.

Lemma pairwise_disjoint_middle l1 x l2 y a :
  pairwise_disjoint (l1 ++ x :: l2) = true →
  y ∈ l1 ++ l2 → a ∈ y → a ∉ x.
Proof.
  induction l1 as [|z l1 IH]; simpl; intros [Hz Hrest]%andb_true_iff Hy Ha.
  - rewrite forallb_forall in Hz. apply list_elem_of_In, Hz in Hy.
    intros Hx. rewrite forallb_forall in Hy. apply list_elem_of_In, Hy in Hx.
    apply negb_true_iff, bool_decide_eq_false in Hx. done.
  - apply elem_of_cons in Hy as [->|Hy]; [|by apply IH].
    rewrite forallb_forall in Hz.
    assert (In x (l1 ++ x :: l2)) as Hx.
    { apply list_elem_of_In, elem_of_app. right. apply list_elem_of_here. }
    apply Hz in Hx. rewrite forallb_forall in Hx. apply list_elem_of_In, Hx in Ha.
    by apply negb_true_iff, bool_decide_eq_false in Ha.
Qed.

Lemma members_busy_spec st :
  members_busy st = true ↔
  ∀ y a, y ∈ playing_members st → a ∈ y →
    ∃ p, find_player a (players st) = Some p ∧ isPlaying p = true.
Proof.
  unfold members_busy. rewrite forallb_forall. split.
  - intros Hall y a Hy Ha. apply list_elem_of_In, Hall in Hy.
    rewrite forallb_forall in Hy. apply list_elem_of_In, Hy in Ha.
    destruct (find_player a (players st)) as [p|]; [by exists p|done].
  - intros Hall y Hy. apply forallb_forall. intros a Ha.
    destruct (Hall y a) as (p & -> & Hp); by try apply list_elem_of_In.
Qed.

(** An operation that leaves the store and the two dispatch arrays
    alone keeps the court invariant. *)
Lemma courts_sound_frame st st' :
  objs st' = objs st → currentMatches st' = currentMatches st →
  matchQueue st' = matchQueue st →
  courts_sound st → courts_sound st'.
Proof.
  intros Ho Hc Hq. unfold courts_sound, dispatch_refs, playing_matches.
  by rewrite Ho, Hc, Hq.
Qed.

(** If moreover every busy player of a match being played is still
    found and busy, the operation keeps players on one court each. *)
Lemma one_court_each_frame st st' :
  objs st' = objs st → currentMatches st' = currentMatches st →
  (∀ y a p, y ∈ playing_members st → a ∈ y →
     find_player a (players st) = Some p → isPlaying p = true →
     ∃ p', find_player a (players st') = Some p' ∧ isPlaying p' = true) →
  one_court_each st → one_court_each st'.
Proof.
  intros Ho Hc Hkeep [Hndb Hbusy].
  assert (playing_members st' = playing_members st) as Hpm.
  { unfold playing_members, playing_matches. by rewrite Ho, Hc. }
  split.
  - unfold no_double_booking. by rewrite Hpm.
  - apply members_busy_spec. rewrite Hpm. intros y a Hy Ha.
    destruct (proj1 (members_busy_spec st) Hbusy y a Hy Ha) as (p & Hp & Hb).
    by apply (Hkeep y a p).
Qed.

Lemma find_player_app x ps qs p :
  find_player x ps = Some p → find_player x (ps ++ qs) = Some p.
Proof.
  induction ps as [|q ps IH]; simpl; [done|]. by case_decide.
Qed.

Lemma find_player_filter_ne x id ps :
  x ≠ id → find_player x (filter (λ p, p_id p ≠ id) ps) = find_player x ps.
Proof.
  intros Hne. induction ps as [|q ps IH]; [done|].
  rewrite filter_cons. simpl. repeat case_decide; simplify_eq/=; try done;
    by rewrite ?decide_True, ?decide_False by done.
Qed.

Lemma bulk_loop_extends level names ps added skipped :
  ∃ more, (bulk_loop level names (ps, added, skipped)).1.1 = ps ++ more.
Proof.
  revert ps added skipped.
  induction names as [|name names IH]; intros ps added skipped; simpl.
  { exists []. by rewrite app_nil_r. }
  destruct (name_taken name ps); [apply IH|].
  destruct (IH (ps ++ [new_player added name level]) (S added) skipped) as [more ->].
  eexists. by rewrite <-app_assoc.
Qed.

Lemma update_keeps_busy id f ps a p :
  (∀ q, p_id (f q) = p_id q) → (∀ q, isPlaying (f q) = isPlaying q) →
  find_player a ps = Some p → isPlaying p = true →
  ∃ p', find_player a (update_player id f ps) = Some p' ∧ isPlaying p' = true.
Proof.
  intros Hid Hplay Hp Hb. rewrite find_update_player by done. rewrite Hp.
  case_decide; simpl; eexists; split; try done. by rewrite Hplay.
Qed.

(** ** One step of each operation on the dispatch arrays *)

Lemma courts_in_play st c :
  Some c ∈ (court <$> playing_matches st) ↔ occupied st c.
Proof.
  unfold occupied. rewrite Exists_exists, list_elem_of_fmap.
  split; intros (m & ? & ?); by exists m.
Qed.

Lemma generateRound_fields st :
  ∃ ms,
    objs (generateRound st).1 = objs st ++ ms
    ∧ currentMatches (generateRound st).1 = currentMatches st
    ∧ matchQueue (generateRound st).1
      = matchQueue st ++ seq (length (objs st)) (length ms)
    ∧ players (generateRound st).1 = players st
    ∧ settings (generateRound st).1 = settings st.
Proof.
  unfold generateRound. case_decide; simpl.
  - exists []. by rewrite !app_nil_r.
  - eexists. repeat split; done.
Qed.

Lemma generateRound_playing st :
  courts_sound st →
  playing_matches (generateRound st).1 = playing_matches st.
Proof.
  intros (Hvalid & _ & _).
  destruct (generateRound_fields st) as (ms & Ho & Hc & _).
  unfold playing_matches. rewrite Ho, Hc. apply omap_lookup_app.
  unfold dispatch_refs in Hvalid. by apply Forall_app in Hvalid as [? _].
Qed.

Lemma generateRound_courts st : courts_sound st → courts_sound (generateRound st).1.
Proof.
  intros Hs. pose proof (generateRound_playing st Hs) as Hpm.
  destruct Hs as (Hvalid & Hnd & Hcourts).
  destruct (generateRound_fields st) as (ms & Ho & Hc & Hq & _).
  unfold courts_sound. rewrite Hpm. split; [|split; [|done]].
  - unfold dispatch_refs in *. rewrite Ho, Hc, Hq, length_app, app_assoc.
    apply Forall_app. split.
    + eapply Forall_impl; [exact Hvalid|]. simpl. lia.
    + apply Forall_forall. intros l Hl%elem_of_seq. lia.
  - unfold dispatch_refs in *. rewrite Hc, Hq, app_assoc.
    apply NoDup_app. split; [done|]. split; [|apply NoDup_seq].
    intros l Hl Hnew%elem_of_seq. rewrite Forall_forall in Hvalid.
    specialize (Hvalid l Hl). lia.
Qed.

Lemma generateRound_exclusive st :
  courts_sound st → one_court_each st → one_court_each (generateRound st).1.
Proof.
  intros Hs [Hndb Hbusy]. pose proof (generateRound_playing st Hs) as Hpm.
  destruct (generateRound_fields st) as (ms & _ & _ & _ & Hp & _).
  unfold one_court_each, no_double_booking, members_busy, playing_members.
  by rewrite Hpm, Hp.
Qed.

Lemma start_match_playing courtNum t i st l m :
  NoDup (dispatch_refs st) →
  matchQueue st !! i = Some l → objs st !! l = Some m →
  playing_matches (start_match courtNum t i st)
  = playing_matches st ++ [begin_match courtNum t m].
Proof.
  intros Hnd Hi Hl. rewrite (start_match_fields _ _ _ _ _ _ Hi Hl).
  unfold playing_matches. simpl. rewrite omap_app. f_equal.
  - apply omap_lookup_insert_ne. unfold dispatch_refs in Hnd.
    apply NoDup_app in Hnd as (_ & Hsep & _). intros Hin. apply (Hsep l Hin).
    by eapply list_elem_of_lookup_2.
  - simpl. by rewrite list_lookup_insert_eq by (by eapply lookup_lt_Some).
Qed.

Lemma start_match_courts courtNum t i st l m :
  courts_sound st →
  matchQueue st !! i = Some l → objs st !! l = Some m →
  ¬ occupied st courtNum →
  courts_sound (start_match courtNum t i st).
Proof.
  intros (Hvalid & Hnd & Hcourts) Hi Hl Hfree.
  pose proof (start_match_playing courtNum t i st l m Hnd Hi Hl) as Hpm.
  unfold courts_sound. rewrite Hpm.
  rewrite (start_match_fields _ _ _ _ _ _ Hi Hl). unfold dispatch_refs in *. simpl.
  assert (currentMatches st ++ matchQueue st
          ≡ₚ (currentMatches st ++ [l]) ++ delete i (matchQueue st)) as Hperm.
  { rewrite <-app_assoc. f_equiv. simpl. by apply delete_Permutation. }
  split; [|split].
  - rewrite length_insert, <-Hperm. done.
  - by rewrite <-Hperm.
  - rewrite fmap_app. apply NoDup_app. split; [done|]. split; [|apply NoDup_singleton].
    intros c Hc ->%list_elem_of_singleton. by apply Hfree, courts_in_play.
Qed.

Lemma start_loop_courts courts n st :
  courts_sound st → NoDup courts →
  (∀ c, c ∈ courts → ¬ occupied st c) →
  courts_sound (start_loop courts n st).1.
Proof.
  revert n st. induction courts as [|courtNum rest IH]; intros n st Hs Hnd Hfree;
    simpl; [done|].
  destruct (findIndex _ _) as [i|] eqn:Hfind; [|done].
  apply findIndex_Some in Hfind as (l & Hi & (m & Hl & _)%on_obj_true).
  apply NoDup_cons in Hnd as [Hfresh Hnd].
  apply IH; [|done|].
  - apply (start_match_courts courtNum _ i st l m); try done.
    apply Hfree, list_elem_of_here.
  - intros c Hc Hocc. apply courts_in_play in Hocc.
    destruct Hs as (_ & Hrefs & _).
    rewrite (start_match_playing _ _ _ _ _ _ Hrefs Hi Hl), fmap_app in Hocc.
    apply elem_of_app in Hocc as [Hocc|Hocc%list_elem_of_singleton].
    + apply (Hfree c); [by apply list_elem_of_further|by apply courts_in_play].
    + simpl in Hocc. by simplify_eq.
Qed.

Lemma startNext_courts st : courts_sound st → courts_sound (startNextMatch st).1.
Proof.
  intros Hs. unfold startNextMatch. repeat case_decide; try done.
  pose proof (start_loop_courts (getAvailableCourts st) 0 st Hs) as Hloop.
  destruct (start_loop (getAvailableCourts st) 0 st) as [st' n].
  case_decide; simpl in *; apply Hloop;
    try (apply NoDup_filter, NoDup_seqZ); intros c Hc; by apply free_court in Hc as [_ ?].
Qed.

Lemma updates_of_found F x ids p :
  ∃ p', updates_of F x ids (Some p) = Some p'.
Proof.
  unfold updates_of. revert p. induction ids as [|y ids IH]; intros p; simpl.
  - by exists p.
  - case_decide; apply IH.
Qed.

Lemma members_busy_weaker st : members_busy st = true → busy_recorded st = true.
Proof.
  intros Hb. apply busy_recorded_spec. intros y a p Hy Ha Hp.
  destruct (proj1 (members_busy_spec st) Hb y a Hy Ha) as (q & Hq & Hbusy). congruence.
Qed.

Lemma start_match_exclusive courtNum t i st l m :
  multiCourt (settings st) = false → one_court_each st →
  matchQueue st !! i = Some l → objs st !! l = Some m → can_start st m = true →
  one_court_each (start_match courtNum t i st).
Proof.
  intros Hmc [Hndb Hbusy] Hi Hl Hstart.
  destruct (start_match_keeps_apart courtNum t i st l m) as [Hndb' _];
    try done; [by apply members_busy_weaker|].
  split; [done|].
  destruct (start_match_effect courtNum t i st l m Hi Hl) as (Hpm & Hps & _).
  apply members_busy_spec. intros y a. rewrite Hpm, Hps.
  rewrite find_update_players by done.
  intros [Hy|Hy%list_elem_of_singleton]%elem_of_app Ha.
  - destruct (proj1 (members_busy_spec st) Hbusy y a Hy Ha) as (p & Hp & Hb).
    rewrite Hp. destruct (updates_of_found (λ _, begin_player) a (members m) p)
      as [p' Hp'].
    exists p'. split; [done|].
    apply (updates_of_keeps (λ p, isPlaying p = true) (λ _, begin_player) a
             (members m) (Some p) p'); [done| |done]. by intros ? [= <-].
  - subst y. apply can_start_startable in Hstart.
    destruct (Hstart a Ha) as (p & Hp & _). rewrite Hp.
    destruct (updates_of_found (λ _, begin_player) a (members m) p) as [p' Hp'].
    exists p'. split; [done|].
    by apply (updates_of_sets (λ p, isPlaying p = true) (λ _, begin_player) a
                (members m) (Some p) p').
Qed.

Lemma start_loop_exclusive courts n st :
  multiCourt (settings st) = false → one_court_each st →
  one_court_each (start_loop courts n st).1.
Proof.
  revert n st. induction courts as [|courtNum rest IH]; intros n st Hmc Hx;
    simpl; [done|].
  destruct (findIndex _ _) as [i|] eqn:Hfind; [|done].
  apply findIndex_Some in Hfind as (l & Hi & (m & Hl & Hstart)%on_obj_true).
  apply IH.
  - by rewrite (start_match_fields _ _ _ _ _ _ Hi Hl).
  - by apply (start_match_exclusive courtNum _ i st l m).
Qed.

Lemma startNext_exclusive st :
  multiCourt (settings st) = false → one_court_each st →
  one_court_each (startNextMatch st).1.
Proof.
  intros Hmc Hx. unfold startNextMatch. repeat case_decide; try done.
  pose proof (start_loop_exclusive (getAvailableCourts st) 0 st Hmc Hx) as Hloop.
  destruct (start_loop (getAvailableCourts st) 0 st) as [st' n]. by case_decide.
Qed.

(** Taking one match out of play: its object is rewritten with the same
    court and teams, its reference leaves [currentMatches]. *)
Lemma retire_playing st st' i l m m' :
  NoDup (currentMatches st) →
  currentMatches st !! i = Some l → objs st !! l = Some m →
  objs st' = <[l := m']> (objs st) →
  currentMatches st' = delete i (currentMatches st) →
  ∃ P1 P2, playing_matches st = P1 ++ m :: P2 ∧ playing_matches st' = P1 ++ P2.
Proof.
  intros Hnd Hi Hl Ho Hc.
  exists (omap (λ l0, objs st !! l0) (take i (currentMatches st))),
         (omap (λ l0, objs st !! l0) (drop (S i) (currentMatches st))).
  unfold playing_matches. rewrite Ho, Hc. split.
  - rewrite <-(take_drop_middle _ _ _ Hi) at 1. rewrite omap_app. simpl.
    by rewrite Hl.
  - rewrite delete_take_drop, <-omap_app. apply omap_lookup_insert_ne.
    rewrite <-(take_drop_middle _ _ _ Hi) in Hnd.
    apply NoDup_app in Hnd as (_ & Hsep & [Hnot _]%NoDup_cons).
    intros [Hin|Hin]%elem_of_app; [|done].
    apply (Hsep l Hin), list_elem_of_here.
Qed.

Lemma retire_courts st st' i l m m' :
  courts_sound st →
  currentMatches st !! i = Some l → objs st !! l = Some m →
  objs st' = <[l := m']> (objs st) →
  currentMatches st' = delete i (currentMatches st) →
  matchQueue st' = matchQueue st →
  courts_sound st'.
Proof.
  intros (Hvalid & Hnd & Hcourts) Hi Hl Ho Hc Hq.
  assert (NoDup (currentMatches st)) as Hcur.
  { unfold dispatch_refs in Hnd. by apply NoDup_app in Hnd as [? _]. }
  destruct (retire_playing st st' i l m m' Hcur Hi Hl Ho Hc) as (P1 & P2 & Hp & Hp').
  assert (dispatch_refs st' `sublist_of` dispatch_refs st) as Hsub.
  { unfold dispatch_refs. rewrite Hc, Hq. apply sublist_app; [apply sublist_delete|done]. }
  split; [|split].
  - rewrite Ho, length_insert. rewrite Forall_forall in Hvalid |- *.
    intros l0 Hl0. apply Hvalid. by eapply elem_of_sublist.
  - eapply sublist_NoDup; [exact Hnd|exact Hsub].
  - rewrite Hp'. rewrite Hp in Hcourts. eapply sublist_NoDup; [exact Hcourts|].
    apply fmap_sublist, sublist_app; [done|]. by apply sublist_cons.
Qed.

Lemma retire_exclusive st st' i l m m' F :
  courts_sound st → one_court_each st →
  currentMatches st !! i = Some l → objs st !! l = Some m →
  objs st' = <[l := m']> (objs st) →
  currentMatches st' = delete i (currentMatches st) →
  players st' = update_players F (members m) (players st) →
  (∀ y p, p_id (F y p) = p_id p) →
  one_court_each st'.
Proof.
  intros (_ & Hnd & _) [Hndb Hbusy] Hi Hl Ho Hc Hps HF.
  assert (NoDup (currentMatches st)) as Hcur.
  { unfold dispatch_refs in Hnd. by apply NoDup_app in Hnd as [? _]. }
  destruct (retire_playing st st' i l m m' Hcur Hi Hl Ho Hc) as (P1 & P2 & Hp & Hp').
  unfold no_double_booking, playing_members in Hndb.
  rewrite Hp, fmap_app, fmap_cons in Hndb.
  split.
  - unfold no_double_booking, playing_members. rewrite Hp', fmap_app.
    eapply pairwise_disjoint_sublist; [|exact Hndb].
    apply sublist_app; [done|]. by apply sublist_cons.
  - apply members_busy_spec. intros y a Hy Ha.
    unfold playing_members in Hy. rewrite Hp', fmap_app in Hy.
    pose proof (pairwise_disjoint_middle _ _ _ y a Hndb Hy Ha) as Hout.
    rewrite Hps, find_update_players, updates_of_other by done.
    apply (proj1 (members_busy_spec st) Hbusy y a); [|done].
    unfold playing_members. rewrite Hp, fmap_app, fmap_cons.
    apply elem_of_app in Hy as [?|?]; apply elem_of_app; [by left|right].
    by apply list_elem_of_further.
Qed.

Lemma completeMatch_fields matchId st :
  (completeMatch matchId st).1 = st
  ∨ ∃ i l m,
      currentMatches st !! i = Some l ∧ objs st !! l = Some m
      ∧ objs (completeMatch matchId st).1 = <[l := finish_match (Date_now 0) m]> (objs st)
      ∧ currentMatches (completeMatch matchId st).1 = delete i (currentMatches st)
      ∧ matchQueue (completeMatch matchId st).1 = matchQueue st
      ∧ players (completeMatch matchId st).1
        = update_players (λ _, release_player) (members m) (players st)
      ∧ settings (completeMatch matchId st).1 = settings st.
Proof.
  unfold completeMatch. destruct (findIndex _ _) as [i|] eqn:Hfind; [|by left].
  apply findIndex_Some in Hfind as (l & Hi & (m & Hl & _)%on_obj_true).
  rewrite Hi. right. exists i, l, m. unfold complete_obj. simpl. rewrite Hl.
  repeat split; done.
Qed.

Lemma saveScore_fields matchId s st :
  (saveScore matchId s st).1 = st
  ∨ ∃ i l m,
      currentMatches st !! i = Some l ∧ objs st !! l = Some m
      ∧ objs (saveScore matchId s st).1 = <[l := score_match (Date_now 0) s m]> (objs st)
      ∧ currentMatches (saveScore matchId s st).1 = delete i (currentMatches st)
      ∧ matchQueue (saveScore matchId s st).1 = matchQueue st
      ∧ players (saveScore matchId s st).1
        = update_players (score_player (score_match (Date_now 0) s m)) (members m)
            (players st)
      ∧ settings (saveScore matchId s st).1 = settings st.
Proof.
  unfold saveScore. destruct (findIndex _ _) as [i|] eqn:Hfind; [|by left].
  apply findIndex_Some in Hfind as (l & Hi & (m & Hl & _)%on_obj_true).
  rewrite Hi, Hl. right. exists i, l, m. repeat split; done.
Qed.

Lemma complete_loop_fields k a st :
  length (objs (complete_loop k a st)) = length (objs st)
  ∧ matchQueue (complete_loop k a st) = matchQueue st
  ∧ settings (complete_loop k a st) = settings st.
Proof.
  revert k st. induction a as [|l a IH]; intros k st; simpl; [done|].
  destruct (IH (S k) (complete_obj (Date_now k) l st)) as (-> & -> & ->).
  unfold complete_obj. destruct (objs st !! l); simpl; [|done].
  by rewrite length_insert.
Qed.

Lemma completeAll_fields st :
  (completeCurrentMatches st).1 = st
  ∨ (currentMatches (completeCurrentMatches st).1 = []
     ∧ length (objs (completeCurrentMatches st).1) = length (objs st)
     ∧ matchQueue (completeCurrentMatches st).1 = matchQueue st
     ∧ settings (completeCurrentMatches st).1 = settings st).
Proof.
  unfold completeCurrentMatches. case_decide; [by left|]. right. simpl.
  split; [done|]. apply complete_loop_fields.
Qed.

Lemma nothing_playing_courts st st' :
  courts_sound st → currentMatches st' = [] →
  length (objs st') = length (objs st) → matchQueue st' = matchQueue st →
  courts_sound st'.
Proof.
  intros (Hvalid & Hnd & _) Hc Ho Hq. unfold courts_sound, dispatch_refs in *.
  unfold playing_matches. rewrite Hc, Hq, Ho. simpl.
  apply Forall_app in Hvalid as [_ ?]. apply NoDup_app in Hnd as (_ & _ & ?).
  repeat split; try done. constructor.
Qed.

Lemma nothing_playing_exclusive st : currentMatches st = [] → one_court_each st.
Proof.
  intros Hc. unfold one_court_each, no_double_booking, members_busy, playing_members,
    playing_matches. by rewrite Hc.
Qed.

Lemma shuffleQueue_fields st :
  objs (shuffleQueue st).1 = objs st
  ∧ currentMatches (shuffleQueue st).1 = currentMatches st
  ∧ matchQueue (shuffleQueue st).1 ≡ₚ matchQueue st
  ∧ players (shuffleQueue st).1 = players st
  ∧ settings (shuffleQueue st).1 = settings st.
Proof.
  unfold shuffleQueue. case_decide; simpl; repeat split; try done.
  apply shuffle_loop_perm.
Qed.



(** ** Roster operations *)

Lemma name_taken_app name ps qs :
  name_taken name (ps ++ qs) = name_taken name ps || name_taken name qs.
Proof. apply existsb_app. Qed.

Lemma name_taken_false name ps :
  name_taken name ps = false →
  toLowerCase name ∉ (λ p, toLowerCase (p_name p)) <$> ps.
Proof.
  intros Hfree (p & Heq & Hp)%list_elem_of_fmap.
  by rewrite (name_taken_elem name ps p) in Hfree.
Qed.

Lemma name_taken_self k name level : name_taken name [new_player k name level] = true.
Proof. unfold name_taken. simpl. by rewrite bool_decide_eq_true_2. Qed.

Lemma names_unique_snoc (ps : list Player) k name level :
  NoDup ((λ p, toLowerCase (p_name p)) <$> ps) →
  name_taken name ps = false →
  NoDup ((λ p, toLowerCase (p_name p)) <$> ps ++ [new_player k name level]).
Proof.
  intros Hnd Hfree. rewrite fmap_app. apply NoDup_app. repeat split; [done| |].
  - intros x Hx [->|[]%elem_of_nil]%elem_of_cons. simpl in Hx.
    by apply name_taken_false in Hfree.
  - simpl. apply NoDup_singleton.
Qed.

Lemma bulk_loop_spec level names ps added skipped :
  ∃ more,
    (bulk_loop level names (ps, added, skipped)).1.1 = ps ++ more
    ∧ (bulk_loop level names (ps, added, skipped)).1.2 = (added + length more)%nat
    ∧ ((bulk_loop level names (ps, added, skipped)).2 + length more
       = skipped + length names)%nat
    ∧ p_name <$> more `sublist_of` names
    ∧ Forall (λ p, p_level p = level ∧ matchCount p = 0 ∧ isPlaying p = false
                   ∧ isResting p = false) more
    ∧ (∀ name, name ∈ names →
         name_taken name (bulk_loop level names (ps, added, skipped)).1.1 = true)
    ∧ (NoDup ((λ p, toLowerCase (p_name p)) <$> ps) →
       NoDup ((λ p, toLowerCase (p_name p))
                <$> (bulk_loop level names (ps, added, skipped)).1.1)).
Proof.
  revert ps added skipped.
  induction names as [|name names IH]; intros ps added skipped; simpl.
  { exists []. rewrite app_nil_r. repeat split; try done; try lia.
    intros name []%elem_of_nil. }
  destruct (name_taken name ps) eqn:Htaken.
  - destruct (IH ps added (S skipped)) as (more & Hps & Ha & Hs & Hsub & Hnew & Hall & Hnd).
    exists more. repeat split; try done; try lia.
    + by apply sublist_cons.
    + intros x [->|Hx]%elem_of_cons; [|by apply Hall].
      rewrite Hps, name_taken_app, Htaken. done.
  - destruct (IH (ps ++ [new_player added name level]) (S added) skipped)
      as (more & Hps & Ha & Hs & Hsub & Hnew & Hall & Hnd).
    exists (new_player added name level :: more). simpl. repeat split.
    + by rewrite Hps, <-app_assoc.
    + rewrite Ha. lia.
    + lia.
    + by apply sublist_skip.
    + by constructor.
    + intros x [->|Hx]%elem_of_cons; [|by apply Hall].
      rewrite Hps, !name_taken_app, name_taken_self. by rewrite orb_true_r.
    + intros Hnd0. apply Hnd. by apply names_unique_snoc.
Qed.

(** X9. Adding players, one by one or in bulk, keeps the names of the
    roster distinct up to letter case. *)
Theorem adding_keeps_names_distinct input lines level st :
  NoDup ((λ p, toLowerCase (p_name p)) <$> players st) →
  NoDup ((λ p, toLowerCase (p_name p)) <$> players (addPlayer input level st).1)
  ∧ NoDup ((λ p, toLowerCase (p_name p))
             <$> players (addBulkPlayers lines level st).1).
Proof.
  intros Hnd. split.
  - unfold addPlayer. simpl. case_decide; [done|].
    destruct (name_taken _ _) eqn:Htaken; [done|]. simpl.
    by apply names_unique_snoc.
  - unfold addBulkPlayers. simpl. case_decide; [done|].
    destruct (bulk_loop_spec level (filter (λ name, name ≠ "") (trim <$> lines))
                (players st) 0 0) as (more & _ & _ & _ & _ & _ & _ & Hnd').
    destruct (bulk_loop _ _ _) as [[ps added] skipped]. simpl in Hnd'.
    repeat case_decide; simpl; by apply Hnd'.
Qed.

(** X10. A bulk add appends the new players to the roster, in the order
    of the lines, each with the chosen level, no match played, neither
    playing nor resting; afterwards every non-blank line is the name of
    a roster player up to letter case, and the toast reports how many
    lines were added and how many skipped. *)
Theorem bulk_add_accounts_for_every_line lines level st :
  let names := filter (λ name, name ≠ "") (trim <$> lines) in
  ∃ more : list Player,
    players (addBulkPlayers lines level st).1 = players st ++ more
    ∧ p_name <$> more `sublist_of` names
    ∧ Forall (λ p, p_level p = level ∧ matchCount p = 0 ∧ isPlaying p = false
                   ∧ isResting p = false) more
    ∧ (∀ name, name ∈ names →
         name_taken name (players (addBulkPlayers lines level st).1) = true)
    ∧ (addBulkPlayers lines level st).2
      = let added := length more in
        let skipped := (length names - length more)%nat in
        if decide (names = []) then Some (NamesRequired, error)
        else if decide (added = 0)%nat then Some (BulkAllDuplicates, error)
        else if decide (skipped = 0)%nat then Some (BulkAdded added, success)
        else Some (BulkAddedSome added skipped, info).
Proof.
  intros names. unfold addBulkPlayers. fold names. simpl.
  destruct (bulk_loop_spec level names (players st) 0 0)
    as (more & Hps & Ha & Hs & Hsub & Hnew & Hall & _).
  case_decide as Hlen.
  { apply length_zero_iff_nil in Hlen. exists []. rewrite Hlen in *. simpl.
    rewrite app_nil_r. repeat split; try done; try (by intros name ?%elem_of_nil). }
  destruct (bulk_loop _ _ _) as [[ps added] skipped]. simpl in *. subst ps added.
  exists more.
  assert (skipped = length names - length more)%nat as -> by lia.
  assert (names ≠ []) by (by intros Heq; rewrite Heq in Hlen).
  repeat case_decide; simpl; repeat split; try done; try lia.
Qed.

(** X11. Removing a player never touches a player with another id, and it
    changes the roster only when the player found is not in a match
    and the dialog was confirmed; then no player with that id is left.
    A player who is in a match is refused with an error. *)
Theorem removePlayer_removes_only_idle id confirmed st :
  (∀ p, p ∈ players st → p_id p ≠ id → p ∈ players (removePlayer id confirmed st).1)
  ∧ players (removePlayer id confirmed st).1 `sublist_of` players st
  ∧ match find_player id (players st) with
    | None => removePlayer id confirmed st = (st, None)
    | Some player =>
        if isPlaying player then removePlayer id confirmed st = (st, Some (PlayerBusy, error))
        else if confirmed then
          (id ∉ (p_id <$> players (removePlayer id confirmed st).1))
          ∧ (removePlayer id confirmed st).2 = Some (PlayerRemoved (p_name player), info)
        else removePlayer id confirmed st = (st, None)
    end.
Proof.
  unfold removePlayer.
  destruct (find_player id (players st)) as [player|]; [|done].
  destruct (isPlaying player); [done|]. destruct confirmed; [|done]. simpl.
  repeat split.
  - intros p Hp Hne. by apply list_elem_of_filter.
  - apply sublist_filter.
  - intros (p & -> & [Hne _]%list_elem_of_filter)%list_elem_of_fmap. done.
Qed.

Lemma update_player_twice id (f g : Player → Player) ps :
  (∀ p, p_id (f p) = p_id p) →
  update_player id g (update_player id f ps) = update_player id (g ∘ f) ps.
Proof.
  intros Hid. induction ps as [|p ps IH]; simpl; [done|].
  case_decide as Hp; simpl.
  - by rewrite decide_True by (by rewrite Hid).
  - rewrite decide_False by done. by rewrite IH.
Qed.

Lemma update_player_same id f ps :
  (∀ p, f p = p) → update_player id f ps = ps.
Proof.
  intros Hf. induction ps as [|p ps IH]; simpl; [done|].
  case_decide; by rewrite ?Hf, ?IH.
Qed.

Lemma update_player_ext id (f g : Player → Player) ps :
  (∀ p, f p = g p) → update_player id f ps = update_player id g ps.
Proof.
  intros Hfg. induction ps as [|p ps IH]; simpl; [done|].
  case_decide; by rewrite ?Hfg, ?IH.
Qed.

Lemma update_player_found_same id f ps :
  (∀ p, find_player id ps = Some p → f p = p) → update_player id f ps = ps.
Proof.
  induction ps as [|p ps IH]; simpl; [done|]. intros Hf.
  case_decide; [by rewrite Hf|]. by rewrite IH.
Qed.

Lemma update_player_reads id f (read : Player → bool) ps :
  (∀ p, read (f p) = read p) → read <$> update_player id f ps = read <$> ps.
Proof.
  intros Hf. induction ps as [|p ps IH]; simpl; [done|].
  case_decide; simpl; [by rewrite Hf|]. f_equal. apply IH.
Qed.

(** X12. Toggling a player's rest twice leaves everybody's resting
    status as it was ("rest" is undone by "ready") and changes nothing
    else, except that the [isResting] field of the player found exists
    afterwards: a player made by [addPlayer], who had no such field, now
    has [isResting: false]. When the field existed, when the id is
    unknown and when the player is in a match, the state is exactly as
    before. *)
Theorem toggle_rest_twice id st :
  (togglePlayerRest id (togglePlayerRest id st).1).1
  = match find_player id (players st) with
    | Some player =>
        if isPlaying player then st
        else set_players (update_player id settle_rest (players st)) st
    | None => st
    end
  ∧ isResting <$> players (togglePlayerRest id (togglePlayerRest id st).1).1
    = isResting <$> players st
  ∧ ((∀ player, find_player id (players st) = Some player →
        is_Some (p_isResting player)) →
     (togglePlayerRest id (togglePlayerRest id st).1).1 = st).
Proof.
  assert ((togglePlayerRest id (togglePlayerRest id st).1).1
          = match find_player id (players st) with
            | Some player =>
                if isPlaying player then st
                else set_players (update_player id settle_rest (players st)) st
            | None => st
            end) as Htwice.
  { unfold togglePlayerRest at 2.
    destruct (find_player id (players st)) as [player|] eqn:Hp; simpl.
    2: { unfold togglePlayerRest. by rewrite Hp. }
    destruct (isPlaying player) eqn:Hb; simpl.
    { unfold togglePlayerRest. by rewrite Hp, Hb. }
    unfold togglePlayerRest. simpl.
    rewrite find_update_player by done. rewrite Hp, decide_True by done. simpl.
    rewrite Hb. simpl. rewrite update_player_twice by done.
    unfold set_players. simpl. f_equal.
    apply update_player_ext. intros q. unfold toggle_rest, settle_rest.
    simpl. unfold isResting at 1. simpl. by rewrite negb_involutive. }
  rewrite Htwice. split; [done|].
  destruct (find_player id (players st)) as [player|] eqn:Hp; [|by split].
  destruct (isPlaying player); [by split|]. simpl. split.
  - by apply update_player_reads.
  - intros Hfield. rewrite update_player_found_same; [by destruct st|].
    intros q Hq. rewrite Hp in Hq. injection Hq as <-.
    destruct (Hfield player eq_refl) as [b Hb]. destruct player. simpl in *.
    subst. done.
Qed.

(** ** Matches leave play once *)

Lemma playing_lookup st m :
  m ∈ playing_matches st ↔ ∃ l, l ∈ currentMatches st ∧ objs st !! l = Some m.
Proof. unfold playing_matches. by rewrite list_elem_of_omap. Qed.

Lemma not_playing_not_found st matchId :
  findIndex (on_obj (objs st) (has_id matchId)) (currentMatches st) = None
  ↔ matchId ∉ (m_id <$> playing_matches st).
Proof.
  rewrite findIndex_None. split.
  - intros Hall (m & -> & (l & Hl & Hm)%playing_lookup)%list_elem_of_fmap.
    specialize (Hall l Hl). unfold on_obj, has_id in Hall. rewrite Hm in Hall.
    simpl in Hall. by apply bool_decide_eq_false in Hall.
  - intros Hnot l Hl. unfold on_obj. destruct (objs st !! l) as [m|] eqn:Hm; [|done].
    simpl. apply bool_decide_eq_false. intros <-. apply Hnot.
    apply list_elem_of_fmap. exists m. split; [done|]. apply playing_lookup. eauto.
Qed.

Lemma match_ids_inj (ms : list Match) m1 m2 :
  NoDup (m_id <$> ms) → m1 ∈ ms → m2 ∈ ms → m_id m1 = m_id m2 → m1 = m2.
Proof.
  intros Hnd H1 H2 Hid.
  apply list_elem_of_lookup in H1 as [i Hi]. apply list_elem_of_lookup in H2 as [j Hj].
  assert (i = j) as ->; [|congruence].
  eapply NoDup_lookup; [exact Hnd| |]; rewrite list_lookup_fmap.
  - by rewrite Hi.
  - rewrite Hj. simpl. by rewrite Hid.
Qed.

Lemma retire_id st st' i l m m' :
  NoDup (currentMatches st) → NoDup (m_id <$> playing_matches st) →
  currentMatches st !! i = Some l → objs st !! l = Some m →
  objs st' = <[l := m']> (objs st) →
  currentMatches st' = delete i (currentMatches st) →
  (m_id m ∉ (m_id <$> playing_matches st')).
Proof.
  intros Hcur Hids Hi Hl Ho Hc.
  destruct (retire_playing st st' i l m m' Hcur Hi Hl Ho Hc) as (P1 & P2 & Hp & ->).
  rewrite Hp, fmap_app, fmap_cons in Hids.
  apply NoDup_app in Hids as (_ & Hsep & [Hnot _]%NoDup_cons).
  rewrite fmap_app. intros [Hin|Hin]%elem_of_app; [|done].
  apply (Hsep _ Hin), list_elem_of_here.
Qed.

Lemma completeMatch_retires matchId st :
  NoDup (currentMatches st) → NoDup (m_id <$> playing_matches st) →
  matchId ∉ (m_id <$> playing_matches (completeMatch matchId st).1).
Proof.
  intros Hcur Hids. unfold completeMatch.
  destruct (findIndex _ _) as [i|] eqn:Hfind; [|by apply not_playing_not_found].
  apply findIndex_Some in Hfind as (l & Hi & (m & Hl & <-%bool_decide_eq_true)%on_obj_true).
  rewrite Hi. unfold complete_obj. simpl. rewrite Hl.
  by eapply (retire_id st _ i l m (finish_match (Date_now 0) m)).
Qed.

Lemma saveScore_retires matchId s st :
  NoDup (currentMatches st) → NoDup (m_id <$> playing_matches st) →
  matchId ∉ (m_id <$> playing_matches (saveScore matchId s st).1).
Proof.
  intros Hcur Hids. unfold saveScore.
  destruct (findIndex _ _) as [i|] eqn:Hfind; [|by apply not_playing_not_found].
  apply findIndex_Some in Hfind as (l & Hi & (m & Hl & <-%bool_decide_eq_true)%on_obj_true).
  rewrite Hi, Hl.
  by eapply (retire_id st _ i l m (score_match (Date_now 0) s m)).
Qed.

(** X13. A match leaves play once: after it has been completed, or its
    score saved, completing it or saving a score for it again changes
    nothing (the score form answers "match not found"). *)
Theorem retired_match_stays_retired matchId s s' st :
  NoDup (currentMatches st) → NoDup (m_id <$> playing_matches st) →
  let after_done := (completeMatch matchId st).1 in
  let after_score := (saveScore matchId s st).1 in
  completeMatch matchId after_done = (after_done, None)
  ∧ saveScore matchId s' after_done = (after_done, Some (MatchNotFound, error))
  ∧ completeMatch matchId after_score = (after_score, None)
  ∧ saveScore matchId s' after_score = (after_score, Some (MatchNotFound, error)).
Proof.
  intros Hcur Hids after_done after_score.
  pose proof (completeMatch_retires matchId st Hcur Hids) as Hdone.
  pose proof (saveScore_retires matchId s st Hcur Hids) as Hscore.
  fold after_done in Hdone. fold after_score in Hscore.
  apply not_playing_not_found in Hdone, Hscore.
  unfold completeMatch at 1 2, saveScore at 1 2. by rewrite Hdone, Hscore.
Qed.

Lemma retire_frees st st' i l m m' c :
  courts_sound st →
  currentMatches st !! i = Some l → objs st !! l = Some m →
  objs st' = <[l := m']> (objs st) →
  currentMatches st' = delete i (currentMatches st) →
  settings st' = settings st →
  court m = Some c →
  (c ∉ getAvailableCourts st)
  ∧ ∀ c', c' ∈ getAvailableCourts st'
          ↔ c' ∈ getAvailableCourts st ∨ (c' = c ∧ 1 ≤ c ≤ courtCount (settings st)).
Proof.
  intros (_ & Hnd & Hcourts) Hi Hl Ho Hc Hs Hcourt.
  assert (NoDup (currentMatches st)) as Hcur.
  { unfold dispatch_refs in Hnd. by apply NoDup_app in Hnd as [? _]. }
  destruct (retire_playing st st' i l m m' Hcur Hi Hl Ho Hc) as (P1 & P2 & Hp & Hp').
  rewrite Hp, fmap_app, fmap_cons, Hcourt in Hcourts.
  apply NoDup_app in Hcourts as (_ & Hsep & [Hnot _]%NoDup_cons).
  assert (∀ c', occupied st c' ↔ c' = c ∨ occupied st' c') as Hocc.
  { intros c'. rewrite <-!courts_in_play, Hp, Hp', !fmap_app, fmap_cons, Hcourt.
    rewrite !elem_of_app, elem_of_cons. split.
    - intros [?|[[= ->]|?]]; auto.
    - intros [->|[?|?]]; auto. }
  assert (¬ occupied st' c) as Hfree.
  { rewrite <-courts_in_play, Hp', fmap_app.
    intros [Hin|Hin]%elem_of_app; [|done]. apply (Hsep _ Hin), list_elem_of_here. }
  split.
  - rewrite free_court, Hocc. intros [_ Hno]. apply Hno. by left.
  - intros c'. rewrite !free_court, Hs, (Hocc c'). split.
    + intros [Hr Hno]. destruct (decide (c' = c)) as [->|Hne]; [by right|].
      left. split; [done|]. by intros [?|?].
    + intros [[Hr Hno]|[-> Hr]]; (split; [done|]); [|done].
      intros ?. apply Hno. by right.
Qed.

Lemma found_is_the_match st m :
  NoDup (m_id <$> playing_matches st) → m ∈ playing_matches st →
  ∃ i l, findIndex (on_obj (objs st) (has_id (m_id m))) (currentMatches st) = Some i
         ∧ currentMatches st !! i = Some l ∧ objs st !! l = Some m.
Proof.
  intros Hids Hm.
  destruct (findIndex _ _) as [i|] eqn:Hfind.
  - pose proof Hfind as Hfind'.
    apply findIndex_Some in Hfind' as (l & Hi & (m' & Hl & Hid%bool_decide_eq_true)%on_obj_true).
    exists i, l. repeat split; [done|].
    rewrite Hl. f_equal. apply (match_ids_inj (playing_matches st)); try done.
    apply playing_lookup. exists l. split; [|done]. by eapply list_elem_of_lookup_2.
  - apply not_playing_not_found in Hfind. destruct Hfind.
    apply list_elem_of_fmap. by exists m.
Qed.

(** X14. Completing a match, or saving its score, frees its court and no
    other: the courts available afterwards are those available before
    and, when its number is still within 1..[courtCount], the court of
    the match, which was not available before. (When the court count
    has been lowered below that number in the meantime, no court
    becomes available.) *)
Theorem finishing_frees_the_court s st m c :
  courts_sound st → NoDup (m_id <$> playing_matches st) →
  m ∈ playing_matches st → court m = Some c →
  (c ∉ getAvailableCourts st)
  ∧ (∀ c', c' ∈ getAvailableCourts (completeMatch (m_id m) st).1
           ↔ c' ∈ getAvailableCourts st
             ∨ (c' = c ∧ 1 ≤ c ≤ courtCount (settings st)))
  ∧ (∀ c', c' ∈ getAvailableCourts (saveScore (m_id m) s st).1
           ↔ c' ∈ getAvailableCourts st
             ∨ (c' = c ∧ 1 ≤ c ≤ courtCount (settings st))).
Proof.
  intros Hs Hids Hm Hcourt.
  destruct (found_is_the_match st m Hids Hm) as (i & l & Hfind & Hi & Hl).
  assert (∀ st' m', objs st' = <[l := m']> (objs st) →
            currentMatches st' = delete i (currentMatches st) →
            settings st' = settings st →
            (c ∉ getAvailableCourts st)
            ∧ ∀ c', c' ∈ getAvailableCourts st'
                    ↔ c' ∈ getAvailableCourts st
                      ∨ (c' = c ∧ 1 ≤ c ≤ courtCount (settings st)))
    as Hfree.
  { intros st' m' Ho Hc Hset. by eapply (retire_frees st st' i l m m' c). }
  assert (completeMatch (m_id m) st
          = (complete_obj (Date_now 0) l
               (set_currentMatches (delete i (currentMatches st)) st),
             Some (MatchCompleted, success))) as ->.
  { unfold completeMatch. by rewrite Hfind, Hi. }
  unfold saveScore. rewrite Hfind, Hi, Hl. unfold complete_obj. simpl. rewrite Hl.
  split; [|split].
  - destruct (Hfree (set_currentMatches (delete i (currentMatches st)) st) m)
      as [? _]; simpl; try done. by rewrite list_insert_id.
  - by apply (Hfree _ (finish_match (Date_now 0) m)).
  - by apply (Hfree _ (score_match (Date_now 0) s m)).
Qed.

(** X15. Completing all current matches leaves nothing in play and every
    court from 1 to [courtCount] available. *)
Theorem completing_all_frees_every_court st :
  playing_matches (completeCurrentMatches st).1 = []
  ∧ getAvailableCourts (completeCurrentMatches st).1
    = seqZ 1 (courtCount (settings st)).
Proof.
  assert (currentMatches (completeCurrentMatches st).1 = []
          ∧ settings (completeCurrentMatches st).1 = settings st) as [Hc Hs].
  { unfold completeCurrentMatches. case_decide as Hlen; simpl.
    - by apply length_zero_iff_nil in Hlen.
    - split; [done|]. apply complete_loop_fields. }
  unfold getAvailableCourts, playing_matches. rewrite Hc, Hs. simpl. split; [done|].
  induction (seqZ 1 (courtCount (settings st))) as [|i a IH]; [done|].
  rewrite filter_cons_True by set_solver. by rewrite IH.
Qed.

(** ** Rental timer *)

Lemma tick_toasts d rt :
  rt_isRunning rt = true →
  NoDup (tick d rt).2
  ∧ ∀ t, (t ∈ (tick d rt).2 → still_due rt t = true ∧ still_due (tick d rt).1 t = false)
         ∧ (still_due (tick d rt).1 t = true → still_due rt t = true).
Proof.
  destruct rt as [mode dur et rem run [[min15 min10] min5] ws]. simpl. intros ->.
  unfold tick, checkRentalTimeAlerts, still_due. simpl.
  set (rem1 := if decide (mode = "endtime") then _ else _).
  assert (rt_remainingSeconds rem1 = rt_remainingSeconds rem1
          ∧ rt_alertsShown rem1 = (min15, min10, min5)
          ∧ rt_isRunning rem1 = true) as (_ & Halerts & Hrun).
  { unfold rem1. by case_decide. }
  destruct (0 <? rt_remainingSeconds rem1); simpl.
  2: { split; [apply NoDup_singleton|]. rewrite Halerts.
       intros []; split; simpl; try done; by intros ?%list_elem_of_singleton. }
  rewrite Halerts.
  destruct (rt_remainingSeconds rem1 =? 900), (rt_remainingSeconds rem1 =? 600),
    (rt_remainingSeconds rem1 =? 300), min15, min10, min5; simpl;
    (split; [first [apply NoDup_singleton|constructor]|]);
    rewrite ?Halerts, ?Hrun; intros []; split; simpl; try done;
    first [by intros ?%elem_of_nil|by intros ?%list_elem_of_singleton].
Qed.

(** X16. While the rental timer runs, in either mode and whatever the
    clock reports, each of the three warnings and the expiry toast is
    shown at most once, and a warning already shown is not shown
    again. *)
Theorem each_timer_toast_once diffs rt :
  NoDup (seconds_pass diffs rt).2
  ∧ ∀ t, t ∈ (seconds_pass diffs rt).2 → still_due rt t = true.
Proof.
  revert rt. induction diffs as [|d diffs IH]; intros rt; simpl.
  { split; [constructor|]. by intros t ?%elem_of_nil. }
  destruct (rt_isRunning rt) eqn:Hrun; [|apply IH].
  destruct (tick_toasts d rt Hrun) as [Hnd Htick].
  destruct (tick d rt) as [rt1 ts1]. specialize (IH rt1).
  destruct (seconds_pass diffs rt1) as [rt2 ts2]. simpl in *.
  destruct IH as [Hnd2 Hdue2]. split.
  - apply NoDup_app. repeat split; try done.
    intros t Ht1 Ht2. destruct (Htick t) as [Hshown _].
    destruct (Hshown Ht1) as [_ Hoff]. by rewrite (Hdue2 t Ht2) in Hoff.
  - intros t [Ht|Ht]%elem_of_app.
    + destruct (Htick t) as [Hshown _]. by destruct (Hshown Ht).
    + destruct (Htick t) as [_ Hmono]. by apply Hmono, Hdue2.
Qed.

Lemma seconds_pass_stopped diffs rt :
  rt_isRunning rt = false → seconds_pass diffs rt = (rt, []).
Proof. intros Hrun. induction diffs as [|d diffs IH]; simpl; [done|]. by rewrite Hrun. Qed.

Lemma tick_counts d rt :
  rt_mode rt ≠ "endtime" →
  rt_mode (tick d rt).1 = rt_mode rt
  ∧ rt_remainingSeconds (tick d rt).1 = rt_remainingSeconds rt - 1
  ∧ (1 < rt_remainingSeconds rt →
     rt_isRunning (tick d rt).1 = rt_isRunning rt ∧ TimeExpired ∉ (tick d rt).2)
  ∧ (rt_remainingSeconds rt ≤ 1 →
     rt_isRunning (tick d rt).1 = false ∧ (tick d rt).2 = [TimeExpired]).
Proof.
  intros Hmode. unfold tick. rewrite decide_False by done. simpl.
  destruct (0 <? rt_remainingSeconds rt - 1) eqn:Hpos; simpl.
  - apply Z.ltb_lt in Hpos. unfold checkRentalTimeAlerts. simpl.
    destruct (rt_alertsShown rt) as [[min15 min10] min5].
    repeat case_match; simpl; repeat split; try done; try lia;
      first [by intros ?%elem_of_nil|by intros ?%list_elem_of_singleton].
  - apply Z.ltb_ge in Hpos. repeat split; try done; lia.
Qed.

(** X17. In duration mode a running timer counts one second per tick: with
    [r] seconds left it shows [r - n] after [n < r] ticks, still running
    and without the expiry toast; from the [r]-th tick on it stands at
    0, stopped, and the expiry toast was the last one shown. *)
Theorem countdown_runs_out diffs rt :
  rt_mode rt ≠ "endtime" → rt_isRunning rt = true → 0 < rt_remainingSeconds rt →
  if decide (Z.of_nat (length diffs) < rt_remainingSeconds rt) then
    rt_remainingSeconds (seconds_pass diffs rt).1
    = rt_remainingSeconds rt - Z.of_nat (length diffs)
    ∧ rt_isRunning (seconds_pass diffs rt).1 = true
    ∧ TimeExpired ∉ (seconds_pass diffs rt).2
  else
    rt_remainingSeconds (seconds_pass diffs rt).1 = 0
    ∧ rt_isRunning (seconds_pass diffs rt).1 = false
    ∧ last (seconds_pass diffs rt).2 = Some TimeExpired.
Proof.
  revert rt. induction diffs as [|d diffs IH]; intros rt Hmode Hrun Hpos.
  { simpl. rewrite decide_True by lia. repeat split; try done; try lia.
    by intros ?%elem_of_nil. }
  simpl seconds_pass. rewrite Hrun.
  destruct (tick_counts d rt Hmode) as (Hmode1 & Hrem1 & Hmore & Hlast).
  destruct (tick d rt) as [rt1 ts1]. simpl in Hmode1, Hrem1, Hmore, Hlast.
  destruct (decide (1 < rt_remainingSeconds rt)) as [Hgt|Hle].
  - destruct (Hmore Hgt) as [Hrun1 Hts1]. specialize (IH rt1).
    rewrite Hmode1, Hrun1, Hrem1 in IH. specialize (IH Hmode Hrun ltac:(lia)).
    destruct (seconds_pass diffs rt1) as [rt2 ts2]. simpl in *.
    repeat case_decide; try lia.
    + destruct IH as (-> & -> & Hts2). repeat split; try done; try lia.
      by intros [?|?]%elem_of_app.
    + destruct IH as (-> & -> & Hts2). repeat split; try done.
      by rewrite last_app, Hts2.
  - destruct (Hlast ltac:(lia)) as [Hrun1 ->].
    rewrite (seconds_pass_stopped diffs rt1 Hrun1). simpl.
    rewrite decide_False by lia. repeat split; try done. lia.
Qed.

(** X18. Typing a duration into the hours and minutes fields and reading
    the fields back: a total of more than 0 minutes is stored, the
    countdown restarts from it with the warnings armed again, and the
    fields show it as hours and minutes below 60 (unchanged when the
    minutes typed were below 60). A total of 0 or less is ignored. *)
Theorem duration_inputs_round_trip hoursInput minutesInput rt :
  let hours := parsed_or 0 hoursInput in
  let minutes := parsed_or 0 minutesInput in
  let rt' := updateDurationFromInputs hoursInput minutesInput rt in
  if decide (0 < hours * 60 + minutes) then
    rt_duration rt' = hours * 60 + minutes
    ∧ rt_remainingSeconds rt' = (hours * 60 + minutes) * 60
    ∧ rt_alertsShown rt' = (false, false, false)
    ∧ (updateDurationInputs rt').1 * 60 + (updateDurationInputs rt').2
      = hours * 60 + minutes
    ∧ 0 ≤ (updateDurationInputs rt').2 < 60
    ∧ (0 ≤ minutes < 60 → updateDurationInputs rt' = (hours, minutes))
  else rt' = rt.
Proof.
  intros hours minutes rt'. unfold rt', updateDurationFromInputs.
  fold hours minutes. case_decide as Htotal.
  - rewrite (proj2 (Z.ltb_lt _ _)) by done. unfold updateDurationInputs. simpl.
    repeat split; try done.
    + Z.to_euclidean_division_equations. lia.
    + Z.to_euclidean_division_equations. lia.
    + Z.to_euclidean_division_equations. lia.
    + intros Hmin. f_equal; Z.to_euclidean_division_equations; nia.
  - by rewrite (proj2 (Z.ltb_ge _ _)) by lia.
Qed.

(** X19. The clock display decomposes the remaining seconds: hours,
    minutes below 60 and seconds below 60 that add up to them. *)
Theorem display_shows_remaining remaining :
  0 ≤ remaining →
  (display_parts remaining).1.1 * 3600 + (display_parts remaining).1.2 * 60
    + (display_parts remaining).2 = remaining
  ∧ 0 ≤ (display_parts remaining).1.1
  ∧ 0 ≤ (display_parts remaining).1.2 < 60
  ∧ 0 ≤ (display_parts remaining).2 < 60.
Proof.
  intros Hpos. unfold display_parts. simpl.
  repeat split; Z.to_euclidean_division_equations; lia.
Qed.

(** ** Queue and settings *)

(** X20. Shuffling the queue reorders it and nothing else: the same
    matches wait, the matches being played, the history, the roster,
    the rounds and the settings are untouched; a queue of fewer than
    two matches is left as it is, with a notice. *)
Theorem shuffleQueue_keeps_the_matches st :
  matchQueue (shuffleQueue st).1 ≡ₚ matchQueue st
  ∧ currentMatches (shuffleQueue st).1 = currentMatches st
  ∧ matches (shuffleQueue st).1 = matches st
  ∧ objs (shuffleQueue st).1 = objs st
  ∧ players (shuffleQueue st).1 = players st
  ∧ rounds (shuffleQueue st).1 = rounds st
  ∧ currentRound (shuffleQueue st).1 = currentRound st
  ∧ settings (shuffleQueue st).1 = settings st
  ∧ rentalTimer (shuffleQueue st).1 = rentalTimer st
  ∧ ((length (matchQueue st) < 2)%nat →
     shuffleQueue st = (st, Some (QueueTooShort, info)))
  ∧ ((2 ≤ length (matchQueue st))%nat →
     (shuffleQueue st).2 = Some (QueueShuffled, success)).
Proof.
  unfold shuffleQueue. case_decide; simpl; repeat split; try done; try lia.
  apply shuffle_loop_perm.
Qed.

(** X21. The court count set with the + and - buttons stays between 1 and
    10, it is the number shown plus the step when that is in range, the
    other settings are kept, and no court outside 1..10 is ever offered
    to a match. *)
Theorem adjustCourts_stays_in_range shown delta st :
  1 ≤ courtCount (settings (adjustCourts shown delta st)) ≤ 10
  ∧ (1 ≤ shown + delta ≤ 10 →
     courtCount (settings (adjustCourts shown delta st)) = shown + delta)
  ∧ matchType (settings (adjustCourts shown delta st)) = matchType (settings st)
  ∧ pairingMode (settings (adjustCourts shown delta st)) = pairingMode (settings st)
  ∧ multiCourt (settings (adjustCourts shown delta st)) = multiCourt (settings st)
  ∧ Forall (λ c, 1 ≤ c ≤ 10) (getAvailableCourts (adjustCourts shown delta st))
  ∧ (length (getAvailableCourts (adjustCourts shown delta st)) ≤ 10)%nat.
Proof.
  assert (1 ≤ courtCount (settings (adjustCourts shown delta st)) ≤ 10) as Hrange.
  { simpl. lia. }
  repeat split; try done; try (simpl; lia).
  - apply Forall_forall. intros c [Hc _]%free_court. lia.
  - unfold getAvailableCourts. etrans; [apply length_filter|].
    rewrite length_seqZ. lia.
Qed.

(** ** Storage: reloading the page *)

Lemma omap_lookup_seq (h : list Match) i n :
  omap (λ l, h !! l) (seq i n) = take n (drop i h).
Proof.
  revert i. induction n as [|n IH]; intros i; simpl; [done|].
  rewrite IH. destruct (h !! i) as [x|] eqn:Hx.
  - by rewrite (drop_S _ _ _ Hx).
  - apply lookup_ge_None in Hx.
    by rewrite !drop_ge, !take_nil by lia.
Qed.


Lemma reload_playing clock st : playing_matches (reload clock st) = playing_matches st.
Proof.
  unfold playing_matches, reload. simpl.
  rewrite omap_lookup_seq, drop_app_length. by rewrite take_app_length.
Qed.


Lemma reload_refs clock st :
  matches (reload clock st) ++ currentMatches (reload clock st) ++ matchQueue (reload clock st)
  = seq 0 (length (objs (reload clock st))).
Proof.
  unfold reload. simpl. by rewrite !length_app, !seq_app.
Qed.

Lemma reload_courts clock st :
  NoDup (court <$> playing_matches st) → courts_sound (reload clock st).
Proof.
  intros Hcourts.
  assert (dispatch_refs (reload clock st) `sublist_of` seq 0 (length (objs (reload clock st))))
    as Hsub.
  { rewrite <-(reload_refs clock st). by apply sublist_inserts_l. }
  split; [|split].
  - apply Forall_forall. intros l Hl.
    eapply elem_of_sublist in Hl; [|exact Hsub]. apply elem_of_seq in Hl. lia.
  - eapply sublist_NoDup; [apply NoDup_seq|exact Hsub].
  - by rewrite reload_playing.
Qed.

Lemma reload_exclusive clock st : one_court_each st → one_court_each (reload clock st).
Proof.
  unfold one_court_each, no_double_booking, members_busy, playing_members.
  by rewrite reload_playing.
Qed.



Lemma completeMatch_matches matchId st :
  matches (completeMatch matchId st).1 = matches st.
Proof.
  unfold completeMatch. destruct (findIndex _ _) as [i|]; [|done].
  destruct (currentMatches st !! i) as [l|]; [|done].
  unfold complete_obj. simpl. by destruct (objs st !! l).
Qed.

Lemma reload_history_at clock st j :
  history_at (reload clock st) j = omap (λ l, objs st !! l) (matches st) !! j.
Proof.
  unfold history_at, reload. simpl.
  destruct (decide (j < length (omap (λ l, objs st !! l) (matches st)))%nat) as [Hj|Hj].
  - rewrite lookup_seq_lt by done. simpl. by rewrite lookup_app_l.
  - rewrite lookup_seq_ge by lia. simpl. symmetry. apply lookup_ge_None. lia.
Qed.

(** X28. In a running page a match is one object, shared by the history
    and the current matches, so [completeMatch] shows in the history.
    After a reload it does not: the match is completed and leaves the
    current matches, but every entry of the history reads as before,
    the completed match still with the status it had. *)
Theorem completion_reaches_history_only_when_shared clock matchId st i l m j :
  findIndex (on_obj (objs st) (has_id matchId)) (currentMatches st) = Some i →
  currentMatches st !! i = Some l → objs st !! l = Some m →
  matches st !! j = Some l →
  history_at (completeMatch matchId st).1 j = Some (finish_match (Date_now 0) m)
  ∧ (completeMatch matchId (reload clock st)).2 = Some (MatchCompleted, success)
  ∧ (∃ j', history_at (reload clock st) j' = Some m)
  ∧ ∀ j', history_at (completeMatch matchId (reload clock st)).1 j' = history_at (reload clock st) j'.
Proof.
  intros Hfind Hi Hl Hj.
  assert (m_id m = matchId) as Hid.
  { apply findIndex_Some in Hfind as (l' & Hi' & (m' & Hl' & Hid)%on_obj_true).
    apply bool_decide_eq_true in Hid. congruence. }
  assert (m ∈ playing_matches (reload clock st)) as Hplaying.
  { rewrite reload_playing. apply playing_lookup. exists l. split; [|done].
    by eapply list_elem_of_lookup_2. }
  split; [|split; [|split]].
  - unfold history_at. rewrite completeMatch_matches, Hj. simpl.
    unfold completeMatch. rewrite Hfind, Hi. unfold complete_obj. simpl. rewrite Hl.
    simpl. apply list_lookup_insert_eq. by eapply lookup_lt_Some.
  - unfold completeMatch.
    destruct (findIndex _ (currentMatches (reload clock st))) as [i'|] eqn:Hfind'.
    + apply findIndex_Some in Hfind' as (l' & -> & _). done.
    + apply not_playing_not_found in Hfind'. destruct Hfind'.
      apply list_elem_of_fmap. by exists m.
  - assert (m ∈ omap (λ l0, objs st !! l0) (matches st)) as Hm.
    { apply list_elem_of_omap. exists l. split; [|done]. by eapply list_elem_of_lookup_2. }
    apply list_elem_of_lookup in Hm as [j' Hj']. exists j'.
    by rewrite reload_history_at.
  - intros j'. unfold history_at. rewrite completeMatch_matches.
    destruct (matches (reload clock st) !! j') as [l'|] eqn:Hl'; [|done]. simpl.
    destruct (completeMatch_fields matchId (reload clock st))
      as [->|(i1 & l1 & m1 & Hi1 & Hl1 & -> & _)]; [done|].
    apply list_lookup_insert_ne. intros <-.
    assert (NoDup (matches (reload clock st) ++ currentMatches (reload clock st)
                     ++ matchQueue (reload clock st))) as Hnd.
    { rewrite reload_refs. apply NoDup_seq. }
    apply NoDup_app in Hnd as (_ & Hsep & _).
    apply (Hsep l1).
    + by eapply list_elem_of_lookup_2.
    + apply elem_of_app. left. by eapply list_elem_of_lookup_2.
Qed.

End MoreProperties.

(** ** Whole sessions: any sequence of operations *)

Section SessionProperties.

(** What the roster operations do to a player who is found and busy. *)
Lemma roster_keeps_busy (a : Action) st x p :
  match a with
  | DoAddPlayer _ _ _ | DoAddBulk _ _ _ | DoEditPlayer _ _ _ _
  | DoRemovePlayer _ _ | DoToggleRest _ | DoChangeLevel _ _ => True
  | _ => False
  end →
  find_player x (players st) = Some p → isPlaying p = true →
  ∃ p', find_player x (players (perform a st)) = Some p' ∧ isPlaying p' = true.
Proof.
  intros Ha Hp Hb. destruct a; try done; simpl.
  - unfold addPlayer. simpl. case_decide; simpl; [eauto|].
    destruct (name_taken _ _); simpl; [eauto|].
    exists p. split; [by apply find_player_app|done].
  - unfold addBulkPlayers. simpl. case_decide; simpl; [eauto|].
    destruct (bulk_loop_extends level
                (filter (λ name, name ≠ "") (trim <$> lines))
                (players st) 0 0) as [more Hmore].
    destruct (bulk_loop _ _ _) as [[ps added] skipped]. simpl in Hmore. subst ps.
    exists p. split; [|done].
    repeat case_decide; simpl; by apply find_player_app.
  - unfold saveEditPlayer. simpl. case_decide; simpl; [eauto|].
    destruct (find_player id (players st)); simpl; [|eauto].
    eapply update_keeps_busy; eauto.
  - unfold removePlayer. destruct (find_player id (players st)) as [q|] eqn:Hq;
      simpl; [|eauto].
    destruct (isPlaying q) eqn:Hqb; simpl; [eauto|].
    destruct confirmed; simpl; [|eauto].
    rewrite find_player_filter_ne; [eauto|]. intros ->. congruence.
  - unfold togglePlayerRest. destruct (find_player id (players st)) as [q|];
      simpl; [|eauto].
    destruct (isPlaying q); simpl; [eauto|]. eapply update_keeps_busy; eauto.
  - unfold changePlayerLevel. destruct (find_player id (players st)) as [q|];
      simpl; [|eauto].
    eapply update_keeps_busy; eauto.
Qed.

Lemma startNext_settings `{!Host} st :
  settings (startNextMatch st).1 = settings st.
Proof.
  unfold startNextMatch. repeat case_decide; try done.
  destruct (start_loop_moves (getAvailableCourts st) 0 st)
    as (started & _ & _ & _ & _ & _ & _ & _ & Hs & _).
  destruct (start_loop _ _ _) as [st' n]. by case_decide.
Qed.

Lemma perform_multiCourt a st :
  enables_multiCourt a = false → multiCourt (settings st) = false →
  multiCourt (settings (perform a st)) = false.
Proof.
  intros Ha Hm. destruct a; simpl.
  - destruct (generateRound_fields (H := h) st) as (ms & _ & _ & _ & _ & ->). done.
  - by rewrite startNext_settings.
  - destruct (completeMatch_fields (H := h) matchId st)
      as [->|(i & l & m & _ & _ & _ & _ & _ & _ & ->)]; done.
  - destruct (completeAll_fields (H := h) st) as [->|(_ & _ & _ & ->)]; done.
  - destruct (saveScore_fields (H := h) matchId s st)
      as [->|(i & l & m & _ & _ & _ & _ & _ & _ & ->)]; done.
  - unfold addPlayer. simpl. repeat case_match; done.
  - unfold addBulkPlayers. simpl. case_decide; [done|].
    destruct (bulk_loop _ _ _) as [[ps added] skipped]. by repeat case_decide.
  - unfold saveEditPlayer. simpl. repeat case_match; done.
  - unfold removePlayer. repeat case_match; done.
  - unfold togglePlayerRest. repeat case_match; done.
  - unfold changePlayerLevel. repeat case_match; done.
  - done.
  - done.
  - done.
  - by destruct value.
  - by destruct (shuffleQueue_fields (H := h) st) as (_ & _ & _ & _ & ->).
  - unfold resetAll. by destruct confirmed.
  - done.
Qed.

Lemma roster_frame a st :
  match a with
  | DoAddPlayer _ _ _ | DoAddBulk _ _ _ | DoEditPlayer _ _ _ _
  | DoRemovePlayer _ _ | DoToggleRest _ | DoChangeLevel _ _
  | DoSetMatchType _ | DoSetPairingMode _ | DoAdjustCourts _ _
  | DoSetMultiCourt _ => True
  | _ => False
  end →
  objs (perform a st) = objs st
  ∧ currentMatches (perform a st) = currentMatches st
  ∧ matchQueue (perform a st) = matchQueue st.
Proof.
  intros Ha. destruct a; try done; simpl.
  - unfold addPlayer. simpl. repeat case_match; done.
  - unfold addBulkPlayers. simpl. case_decide; [done|].
    destruct (bulk_loop _ _ _) as [[ps added] skipped]. by repeat case_decide.
  - unfold saveEditPlayer. simpl. repeat case_match; done.
  - unfold removePlayer. repeat case_match; done.
  - unfold togglePlayerRest. repeat case_match; done.
  - unfold changePlayerLevel. repeat case_match; done.
Qed.

Lemma perform_courts a st : courts_sound st → courts_sound (perform a st).
Proof.
  intros Hst.
  assert (∀ b, match b with
    | DoAddPlayer _ _ _ | DoAddBulk _ _ _ | DoEditPlayer _ _ _ _
    | DoRemovePlayer _ _ | DoToggleRest _ | DoChangeLevel _ _
    | DoSetMatchType _ | DoSetPairingMode _ | DoAdjustCourts _ _
    | DoSetMultiCourt _ => True
    | _ => False end → courts_sound (perform b st)) as Hframe.
  { intros b Hb. destruct (roster_frame b st Hb) as (Ho & Hc & Hq).
    by eapply courts_sound_frame. }
  destruct a; try (by apply Hframe); simpl.
  - by apply generateRound_courts.
  - by apply startNext_courts.
  - destruct (completeMatch_fields (H := h) matchId st)
      as [->|(i & l & m & Hi & Hl & Ho & Hc & Hq & _)]; [done|].
    eapply retire_courts; eauto.
  - destruct (completeAll_fields (H := h) st) as [->|(Hc & Ho & Hq & _)]; [done|].
    by eapply nothing_playing_courts.
  - destruct (saveScore_fields (H := h) matchId s st)
      as [->|(i & l & m & Hi & Hl & Ho & Hc & Hq & _)]; [done|].
    eapply retire_courts; eauto.
  - destruct (shuffleQueue_fields (H := h) st) as (Ho & Hc & Hq & _).
    destruct Hst as (Hvalid & Hnd & Hcourts).
    unfold courts_sound, dispatch_refs, playing_matches in *. rewrite Ho, Hc.
    repeat split; [|by rewrite Hq|done].
    apply Forall_app. apply Forall_app in Hvalid as [? ?]. split; [done|].
    by rewrite Hq.
  - unfold resetAll. destruct confirmed; simpl; [|done].
    repeat split; simpl; constructor.
  - apply reload_courts. by destruct Hst as (_ & _ & ?).
Qed.

Lemma perform_exclusive a st :
  enables_multiCourt a = false → multiCourt (settings st) = false →
  courts_sound st → one_court_each st → one_court_each (perform a st).
Proof.
  intros Ha Hm Hs Hst.
  assert (∀ b, match b with
    | DoAddPlayer _ _ _ | DoAddBulk _ _ _ | DoEditPlayer _ _ _ _
    | DoRemovePlayer _ _ | DoToggleRest _ | DoChangeLevel _ _ => True
    | _ => False end → one_court_each (perform b st)) as Hroster.
  { intros b Hb.
    assert (objs (perform b st) = objs st
            ∧ currentMatches (perform b st) = currentMatches st
            ∧ matchQueue (perform b st) = matchQueue st) as (Ho & Hc & _).
    { apply roster_frame. by destruct b. }
    eapply one_court_each_frame; [exact Ho|exact Hc| |exact Hst].
    intros y x p _ _ Hp Hb'. by eapply roster_keeps_busy. }
  destruct a; try (by apply Hroster);
    try (simpl; eapply one_court_each_frame; [done|done| |exact Hst];
         simpl; by eauto).
  - by apply (generateRound_exclusive (H := h)).
  - by apply (startNext_exclusive (H := h)).
  - simpl. destruct (completeMatch_fields (H := h) matchId st)
      as [->|(i & l & m & Hi & Hl & Ho & Hc & Hq & Hp & _)]; [done|].
    eapply (retire_exclusive st _ i l m _ (λ _, release_player)); eauto.
  - simpl. destruct (completeAll_fields (H := h) st) as [->|(Hc & _)]; [done|].
    by apply nothing_playing_exclusive.
  - simpl. destruct (saveScore_fields (H := h) matchId s st)
      as [->|(i & l & m & Hi & Hl & Ho & Hc & Hq & Hp & _)]; [done|].
    eapply (retire_exclusive st _ i l m _
              (score_player (score_match (Date_now 0) s m))); eauto.
    intros y p. apply score_player_id.
  - simpl. destruct (shuffleQueue_fields (H := h) st) as (Ho & Hc & _ & Hp & _).
    eapply one_court_each_frame; [exact Ho|exact Hc| |exact Hst].
    rewrite Hp. eauto.
  - simpl. unfold resetAll. destruct confirmed; simpl; [|done].
    by apply nothing_playing_exclusive.
  - by apply reload_exclusive.
Qed.

Lemma session_snoc acts a st : session (acts ++ [a]) st = perform a (session acts st).
Proof. unfold session. by rewrite foldl_app. Qed.

Lemma session_courts_sound acts st : courts_sound st → courts_sound (session acts st).
Proof.
  intros Hst. induction acts as [|a acts IH] using rev_ind; [done|].
  rewrite session_snoc. by apply perform_courts.
Qed.

Lemma session_multiCourt acts st :
  forallb (λ a, negb (enables_multiCourt a)) acts = true →
  multiCourt (settings st) = false →
  multiCourt (settings (session acts st)) = false.
Proof.
  intros Hacts Hm. induction acts as [|a acts IH] using rev_ind; [done|].
  rewrite forallb_app in Hacts. apply andb_true_iff in Hacts as [Hacts Ha].
  simpl in Ha. rewrite andb_true_r in Ha. apply negb_true_iff in Ha.
  rewrite session_snoc. apply perform_multiCourt; [done|]. by apply IH.
Qed.

(** X22. Whatever the users do, in whatever order (generate rounds,
    start, complete and score matches, shuffle the queue, edit the
    roster and the settings, reset, reload the page), no two matches
    being played are on the same court, and no match is both queued and
    being played or queued twice. *)
Theorem session_keeps_courts_apart acts st :
  courts_sound st → courts_sound (session acts st).
Proof. apply session_courts_sound. Qed.

(** X23. Start from a state in which the queued and current matches are
    distinct objects of the store, the current matches are on pairwise
    distinct courts ([courts_sound]), no player is in two matches being
    played and every member of a match being played is in the roster
    and marked as playing ([one_court_each]), with multi-court mode
    off; the empty session is such a state. Then, as long as multi-court
    mode is not switched on, no sequence of operations puts a player
    into two matches that are being played at the same time, and every
    member of a match being played stays marked as playing. *)
Theorem session_keeps_players_apart acts st :
  courts_sound st → one_court_each st →
  multiCourt (settings st) = false →
  forallb (λ a, negb (enables_multiCourt a)) acts = true →
  one_court_each (session acts st).
Proof.
  intros Hs Hst Hm Hacts. induction acts as [|a acts IH] using rev_ind; [done|].
  rewrite forallb_app in Hacts. apply andb_true_iff in Hacts as [Hacts Ha].
  simpl in Ha. rewrite andb_true_r in Ha. apply negb_true_iff in Ha.
  rewrite session_snoc. apply perform_exclusive; [done| | |by apply IH].
  - by apply session_multiCourt.
  - by apply session_courts_sound.
Qed.




End SessionProperties.

(** * Scenarios

    The model run on concrete sessions, with the numbered hosts. *)

(** C1 (the code differs). Four idle players of weights 4, 3, 2, 1 with
    equal match counts, doubles, balanced mode, one court: the match
    emitted is [pro, intermediate] against [advanced, beginner]; the
    strongest player is teamed with the second weakest, not with the
    weakest. *)
Theorem balanced_doubles_scenario :
  (λ m, (team1 m, team2 m))
    <$> generateMatches (H := numbered_host 1) 1 (mkSettings doubles balanced 1 false)
          four_players
  = [(["pro"; "intermediate"], ["advanced"; "beginner"])].
Proof. vm_compute. reflexivity. Qed.

(** C2 (the code differs). With three eligible players and a fourth one
    resting, in doubles, [generateRound] does not fail: its guard counts
    the resting player, the round counter goes from 0 to 1 and a round
    without matches is recorded, under a success toast. *)
Theorem resting_player_passes_round_guard :
  length (filter (λ p, isPlaying p = false ∧ isResting p = false) (players one_resting))
  = 3%nat
  ∧ generateRound (H := numbered_host 1) one_resting
    = (mkState (players one_resting) [] [] [] [] [mkRound "id1-0" 1 [] "t1-0"]
         (settings one_resting) 1 demo_timer,
       Some (RoundCreated 1 0, success)).
Proof. split; vm_compute; reflexivity. Qed.



(** C4 (the code differs). Two rounds are queued for the same four
    players and both are started with multi-court mode on; the match on
    court 2 is completed, which clears [isPlaying] of the four players
    although they are still in the match on court 1; multi-court mode
    is switched off and a third round is generated. In that state no
    player is in two matches being played, and [startNextMatch], which
    only reads the flags, starts the queued match of the same four
    players on court 2 with the success toast: each of them is then in
    two matches being played. *)
Theorem startNext_double_books_released_players :
  multiCourt (settings released_while_playing) = false
  ∧ no_double_booking released_while_playing = true
  ∧ (λ p, (p_id p, isPlaying p)) <$> players released_while_playing
    = [("pro", false); ("advanced", false); ("intermediate", false);
       ("beginner", false)]
  ∧ (startNextMatch (H := numbered_host 6) released_while_playing).2
    = Some (MatchesStarted 1, success)
  ∧ (λ m, (status m, court m, members m))
      <$> playing_matches (startNextMatch (H := numbered_host 6) released_while_playing).1
    = [(playing, Some 1, ["pro"; "intermediate"; "advanced"; "beginner"]);
       (playing, Some 2, ["pro"; "intermediate"; "advanced"; "beginner"])]
  ∧ no_double_booking (startNextMatch (H := numbered_host 6) released_while_playing).1
    = false.
Proof. repeat split; vm_compute; reflexivity. Qed.

Lemma startNext_without_capacity_witness :
  (startNextMatch (H := numbered_host 4) one_court_busy).1 = one_court_busy
  ∧ (startNextMatch (H := numbered_host 4) one_court_busy).2 = Some (CourtsFull, error).
Proof.
  assert (courts_full one_court_busy) as Hfull.
  { apply courts_full_run. apply (bool_decide_unpack _). vm_compute. exact I. }
  destruct (startNext_without_capacity (H := numbered_host 4) one_court_busy)
    as (Hsame & _ & Hreport & _); [by right; left|].
  split; [exact Hsame|]. apply Hreport; [discriminate|exact Hfull].
Defined.

Lemma emitted_teams_well_formed_witness :
  NoDup (p_id <$> four_players)
  ∧ Forall (λ m, m_type m = singles
               ∧ length (team1 m) = 1%nat
               ∧ length (team2 m) = 1%nat
               ∧ ∀ x, x ∈ team1 m → x ∉ team2 m)
      (generateMatches (H := numbered_host 1) 1 (mkSettings singles random 2 false)
         four_players).
Proof.
  assert (NoDup (p_id <$> four_players)) as Hnd.
  { apply (bool_decide_unpack _). vm_compute. exact I. }
  split; [exact Hnd|].
  exact (emitted_teams_well_formed (H := numbered_host 1) 1
           (mkSettings singles random 2 false) four_players Hnd).
Defined.

Lemma emitted_matches_bounded_witness :
  (length (generateMatches (H := numbered_host 1) 1 (mkSettings singles separate 1 false)
             four_players) ≤ 4 `div` 2)%nat
  ∧ NoDup (concat (members <$> generateMatches (H := numbered_host 1) 1
                                 (mkSettings singles separate 1 false) four_players)).
Proof.
  assert (NoDup (p_id <$> four_players)) as Hnd.
  { apply (bool_decide_unpack _). vm_compute. exact I. }
  destruct (emitted_matches_bounded (H := numbered_host 1) 1
              (mkSettings singles separate 1 false) four_players)
    as (_ & Hdiv & _ & Hdistinct); [simpl; lia|exact Hnd|].
  split; [exact Hdiv|exact Hdistinct].
Defined.

(** The score sheet 21-19, 18-21, 21-15 on the match of court 1: team 1
    wins, each of its members has one win more, each member of team 2
    one loss more. *)
Lemma score_decides_winner_witness :
  ∃ m', objs (saveScore (H := numbered_host 4) "id1-1" three_sets one_court_busy).1
          !! 0%nat = Some m'
    ∧ winner m' = Some team1_wins
    ∧ ∀ x p, x ∈ ["pro"; "intermediate"; "advanced"; "beginner"] →
        find_player x (players one_court_busy) = Some p →
        ∃ p', find_player x
                (players (saveScore (H := numbered_host 4) "id1-1" three_sets
                            one_court_busy).1) = Some p'
          ∧ (x ∈ ["pro"; "intermediate"] → wins_of p' = wins_of p + 1)
          ∧ (x ∈ ["advanced"; "beginner"] → losses_of p' = losses_of p + 1).
Proof.
  edestruct (score_decides_winner (H := numbered_host 4) one_court_busy "id1-1"
               three_sets 0%nat 0%nat)
    as (m' & w & Hm' & _ & _ & Hw & Hteam1 & _ & _ & Hstats).
  - vm_compute. reflexivity.
  - vm_compute. reflexivity.
  - vm_compute. reflexivity.
  - apply (bool_decide_unpack _). vm_compute. exact I.
  - assert (w = team1_wins) as -> by (apply Hteam1; vm_compute; lia).
    exists m'. split; [exact Hm'|]. split; [exact Hw|].
    intros x p Hx Hp. destruct (Hstats x p Hx Hp) as (p' & Hp' & _ & Hwin & Hloss & _).
    exists p'. split; [exact Hp'|]. split; intros Hin.
    + by apply Hwin.
    + by apply Hloss.
Defined.


Lemma edit_allows_duplicate_name_witness :
  (saveEditPlayer (H := numbered_host 1) "Ann" " Bob " beginner ann_and_bob).2
  = Some (PlayerEdited, success)
  ∧ (p_name <$> players
       (saveEditPlayer (H := numbered_host 1) "Ann" " Bob " beginner ann_and_bob).1)
    = ["Bob"; "Bob"]
  ∧ addPlayer (H := numbered_host 1) " Bob " beginner ann_and_bob
    = (ann_and_bob, Some (DuplicateName, error)).
Proof.
  destruct (edit_allows_duplicate_name (H := numbered_host 1) ann_and_bob
              (idle_player "Ann" beginner 0) (idle_player "Bob" pro 0) " Bob " beginner)
    as (Htoast & _ & Hadd & _).
  - apply list_elem_of_here.
  - apply list_elem_of_further, list_elem_of_here.
  - discriminate.
  - vm_compute. reflexivity.
  - discriminate.
  - split; [exact Htoast|]. split; [vm_compute; reflexivity|exact Hadd].
Defined.

(** ** Further scenarios *)

Lemma fewest_matches_play_first_witness :
  matchCount (idle_player "c" beginner 1) ≤ matchCount (idle_player "a" beginner 2).
Proof.
  destruct (generateMatches (H := numbered_host 1) 1 (mkSettings singles balanced 1 false)
              uneven_pool) as [|m ms] eqn:Hgen; [vm_compute in Hgen; discriminate|].
  apply (fewest_matches_play_first (H := numbered_host 1) 1
           (mkSettings singles balanced 1 false) uneven_pool m).
  - apply (bool_decide_unpack _). vm_compute. exact I.
  - rewrite Hgen. apply list_elem_of_here.
  - apply list_elem_of_further, list_elem_of_further, list_elem_of_here.
  - vm_compute in Hgen. injection Hgen as <- _. vm_compute.
    apply list_elem_of_further, list_elem_of_here.
  - apply list_elem_of_here.
  - reflexivity.
  - rewrite Hgen. vm_compute in Hgen. injection Hgen as <- <-.
    apply (bool_decide_unpack _). vm_compute. exact I.
Defined.

Lemma round_pairs_only_idle_players_witness :
  ∃ p, p ∈ four_players ∧ p_id p = "pro" ∧ isPlaying p = false ∧ isResting p = false.
Proof.
  destruct (objs (generateRound (H := numbered_host 1)
                    (initial_state (mkSettings doubles balanced 1 false) four_players)).1
              !! 0%nat) as [m|] eqn:Hm; [|vm_compute in Hm; discriminate].
  apply (round_pairs_only_idle_players (H := numbered_host 1)
           (initial_state (mkSettings doubles balanced 1 false) four_players) m "pro").
  - apply list_elem_of_lookup_2 in Hm. exact Hm.
  - vm_compute in Hm. injection Hm as <-. apply list_elem_of_here.
Defined.

Lemma startNext_uses_a_free_court_witness :
  ∃ n, (startNextMatch (H := numbered_host 3)
          (two_rounds_queued (mkSettings doubles balanced 1 false))).2
       = Some (MatchesStarted n, success)
    ∧ (1 ≤ n ≤ length (getAvailableCourts
                         (two_rounds_queued (mkSettings doubles balanced 1 false))))%nat
    ∧ length (currentMatches
                (startNextMatch (H := numbered_host 3)
                   (two_rounds_queued (mkSettings doubles balanced 1 false))).1)
      = (length (currentMatches (two_rounds_queued (mkSettings doubles balanced 1 false)))
         + n)%nat
    ∧ (length (matchQueue
                 (startNextMatch (H := numbered_host 3)
                    (two_rounds_queued (mkSettings doubles balanced 1 false))).1) + n)%nat
      = length (matchQueue (two_rounds_queued (mkSettings doubles balanced 1 false))).
Proof.
  destruct (objs (two_rounds_queued (mkSettings doubles balanced 1 false)) !! 0%nat)
    as [m|] eqn:Hm; [|vm_compute in Hm; discriminate].
  apply (startNext_uses_a_free_court (H := numbered_host 3)
           (two_rounds_queued (mkSettings doubles balanced 1 false)) 0%nat m).
  - vm_compute. apply list_elem_of_here.
  - exact Hm.
  - apply can_start_startable. vm_compute in Hm. injection Hm as <-.
    vm_compute. reflexivity.
  - intros Hfull%no_free_court. vm_compute in Hfull. discriminate.
Defined.

Lemma session_keeps_courts_apart_witness :
  courts_sound (session club_night opening).
Proof. apply session_keeps_courts_apart. repeat split; constructor. Defined.

Lemma session_keeps_players_apart_witness :
  one_court_each (session club_night opening).
Proof.
  apply session_keeps_players_apart.
  - repeat split; constructor.
  - split; reflexivity.
  - reflexivity.
  - reflexivity.
Defined.


Lemma adding_keeps_names_distinct_witness :
  NoDup ((λ p, ascii_toLowerCase (p_name p))
           <$> players (addPlayer (H := numbered_host 1) " Cid " pro ann_and_bob).1)
  ∧ NoDup ((λ p, ascii_toLowerCase (p_name p))
             <$> players (addBulkPlayers (H := numbered_host 1)
                            ["Cid"; "ANN"; " cid"; "Dee"] pro ann_and_bob).1).
Proof.
  apply (adding_keeps_names_distinct (H := numbered_host 1)).
  apply (bool_decide_unpack _). vm_compute. exact I.
Defined.

Lemma retired_match_stays_retired_witness :
  completeMatch (H := numbered_host 4) "id1-1"
    (saveScore (H := numbered_host 4) "id1-1" three_sets both_courts_busy).1
  = ((saveScore (H := numbered_host 4) "id1-1" three_sets both_courts_busy).1, None)
  ∧ saveScore (H := numbered_host 4) "id1-1" three_sets
      (saveScore (H := numbered_host 4) "id1-1" three_sets both_courts_busy).1
    = ((saveScore (H := numbered_host 4) "id1-1" three_sets both_courts_busy).1,
       Some (MatchNotFound, error)).
Proof.
  destruct (retired_match_stays_retired (H := numbered_host 4) "id1-1" three_sets
              three_sets both_courts_busy) as (_ & _ & Hdone & Hscore).
  - apply (bool_decide_unpack _). vm_compute. exact I.
  - apply (bool_decide_unpack _). vm_compute. exact I.
  - split; [exact Hdone|exact Hscore].
Defined.

Lemma finishing_frees_the_court_witness :
  (1 ∉ getAvailableCourts one_court_busy)
  ∧ 1 ∈ getAvailableCourts (completeMatch (H := numbered_host 4) "id1-1" one_court_busy).1
  ∧ 1 ∈ getAvailableCourts
          (saveScore (H := numbered_host 4) "id1-1" three_sets one_court_busy).1.
Proof.
  destruct (objs one_court_busy !! 0%nat) as [m|] eqn:Hm;
    [|vm_compute in Hm; discriminate].
  assert (m ∈ playing_matches one_court_busy) as Hplaying.
  { apply playing_lookup. exists 0%nat. split; [|exact Hm].
    vm_compute. apply list_elem_of_here. }
  vm_compute in Hm. injection Hm as <-.
  destruct (finishing_frees_the_court (H := numbered_host 4) three_sets one_court_busy
              _ 1 ltac:(unfold courts_sound; apply (bool_decide_unpack _);
                        vm_compute; exact I)
              ltac:(apply (bool_decide_unpack _); vm_compute; exact I)
              Hplaying eq_refl)
    as (Hbusy & Hdone & Hscore).
  split; [exact Hbusy|]. split.
  - apply Hdone. right. split; [reflexivity|]. vm_compute. split; discriminate.
  - apply Hscore. right. split; [reflexivity|]. vm_compute. split; discriminate.
Defined.

Lemma countdown_runs_out_witness :
  rt_remainingSeconds (seconds_pass [0; 0] last_seconds).1 = 1
  ∧ rt_isRunning (seconds_pass [0; 0] last_seconds).1 = true
  ∧ rt_remainingSeconds (seconds_pass [0; 0; 0; 0] last_seconds).1 = 0
  ∧ rt_isRunning (seconds_pass [0; 0; 0; 0] last_seconds).1 = false
  ∧ last (seconds_pass [0; 0; 0; 0] last_seconds).2 = Some TimeExpired.
Proof.
  pose proof (countdown_runs_out [0; 0] last_seconds ltac:(discriminate) eq_refl
                ltac:(unfold last_seconds; simpl; lia)) as Hearly.
  pose proof (countdown_runs_out [0; 0; 0; 0] last_seconds ltac:(discriminate) eq_refl
                ltac:(unfold last_seconds; simpl; lia)) as Hlate.
  rewrite decide_True in Hearly by (unfold last_seconds; simpl; lia).
  rewrite decide_False in Hlate by (unfold last_seconds; simpl; lia).
  destruct Hearly as (Hrem & Hrun & _). destruct Hlate as (Hrem' & Hrun' & Hlast).
  repeat split; assumption.
Defined.

Lemma display_shows_remaining_witness :
  (display_parts 3725).1.1 * 3600 + (display_parts 3725).1.2 * 60
    + (display_parts 3725).2 = 3725
  ∧ 0 ≤ (display_parts 3725).1.1
  ∧ 0 ≤ (display_parts 3725).1.2 < 60
  ∧ 0 ≤ (display_parts 3725).2 < 60.
Proof. apply (display_shows_remaining 3725). lia. Defined.

Lemma completion_reaches_history_only_when_shared_witness :
  status <$> history_at (completeMatch (H := numbered_host 4) "id1-1" one_court_busy).1 0
  = Some completed
  ∧ (completeMatch (H := numbered_host 4) "id1-1" (reload (λ _, 0) one_court_busy)).2
    = Some (MatchCompleted, success)
  ∧ status <$> history_at
                 (completeMatch (H := numbered_host 4) "id1-1" (reload (λ _, 0) one_court_busy)).1 0
    = Some playing.
Proof.
  destruct (objs one_court_busy !! 0%nat) as [m|] eqn:Hm;
    [|vm_compute in Hm; discriminate].
  destruct (completion_reaches_history_only_when_shared (H := numbered_host 4)
              (λ _, 0) "id1-1" one_court_busy 0 0 m 0)
    as (Hlive & Htoast & _ & Hstale).
  - vm_compute. reflexivity.
  - vm_compute. reflexivity.
  - exact Hm.
  - vm_compute. reflexivity.
  - split; [by rewrite Hlive|]. split; [exact Htoast|].
    rewrite Hstale. vm_compute. reflexivity.
Defined.

(** Ann was typed in with [addPlayer] and has no [isResting] field; after
    two toggles she is ready as before, with the field written. *)
Lemma toggle_rest_twice_witness :
  p_isResting <$> players ann_and_bob = [None; None]
  ∧ p_isResting
      <$> players (togglePlayerRest "Ann" (togglePlayerRest "Ann" ann_and_bob).1).1
    = [Some false; None]
  ∧ isResting
      <$> players (togglePlayerRest "Ann" (togglePlayerRest "Ann" ann_and_bob).1).1
    = isResting <$> players ann_and_bob.
Proof.
  destruct (toggle_rest_twice "Ann" ann_and_bob) as (Htwice & Hreads & _).
  split; [reflexivity|]. split; [|exact Hreads].
  rewrite Htwice. reflexivity.
Defined.

